(** * Tower-defense simulation core: a shallow embedding of the React component

    The game is a single React component ([App]) with three per-frame child
    components ([EnemyMesh], [TowerMesh], [ProjectileMesh]).  The embedding
    keeps the state of [App], the refs of the mounted children and the
    browser state the callbacks touch in one record, and turns every
    callback of the source into a function on that record.

    Numbers.  The quantities the source only ever builds from integer
    constants, [Math.round] and [Math.floor] (hit points, damage, money,
    lives, wave, level) are [Z]; positions, times, ranges and progress are
    [Q], every double being a rational.  The two counters that a frame
    callback adds to on every tick and then compares with a threshold (the
    progress of an enemy, the time since the last shot of a tower) are
    advanced with the sum and product of doubles, and the constants of the
    table they are compared with are the doubles their literals denote;
    these operations, [Math.sqrt] and the number formatting [toString(36)]
    are taken from an interface ([JsBuiltins]), and every theorem holds for
    all its instances.  The remaining arithmetic (interpolation, distances,
    prices) is exact.

    Rendering.  A handler of [App] reads [money], [wave], [towers],
    [projectiles] and [placingType] from the render it was created in and
    queues functional updates; the handlers therefore take two states, the
    rendered one and the one their updates apply to.  The props and refs of
    a child are read from the current state. *)

From Stdlib Require Import ZArith QArith Qround Qminmax Qpower List String Ascii Bool Lia.
Import ListNotations.
Open Scope string_scope.
Open Scope list_scope.
Open Scope Z_scope.

(** ** JavaScript primitives *)

(** [num_lit q] is the number a decimal literal [q] denotes, [num_add] and
    [num_mul] are [+] and [*] on numbers.  The three laws are laws of the
    rounded operations on the doubles the program holds: a literal and a
    product of numbers that are not negative are not negative, and adding
    a number that is not negative does not lower a number. *)
Class JsBuiltins := {
  Math_sqrt : Q -> Q;
  toString36 : Q -> string;
  num_lit : Q -> Q;
  num_add : Q -> Q -> Q;
  num_mul : Q -> Q -> Q;
  num_lit_nonneg : forall q, (0 <= q)%Q -> (0 <= num_lit q)%Q;
  num_mul_nonneg : forall x y, (0 <= x)%Q -> (0 <= y)%Q -> (0 <= num_mul x y)%Q;
  num_add_grows : forall x y, (0 <= y)%Q -> (x <= num_add x y)%Q
}.

(** [a < b] on numbers. *)
Definition Qlt_bool (a b : Q) : bool := negb (Qle_bool b a).

(** [Math.floor], [Math.round] (round half up), [Math.max], [Math.min],
    [Math.pow] with an integer exponent. *)
Definition Math_floor (x : Q) : Z := Qfloor x.
Definition Math_round (x : Q) : Z := Qfloor (x + (1 # 2))%Q.
Definition Math_max (a b : Q) : Q := if Qle_bool a b then b else a.
Definition Math_min (a b : Q) : Q := if Qle_bool a b then a else b.
Definition Math_pow (b : Q) (e : Z) : Q := Qpower b e.

(** [x || d] on numbers: [0] is the falsy number. *)
Definition orZ (x d : Z) : Z := if x =? 0 then d else x.
Definition orQ (x d : Q) : Q := if Qeq_bool x 0 then d else x.

(** [x || d] when the property may be missing ([undefined]). *)
Definition orUndefZ (x : option Z) (d : Z) : Z :=
  match x with Some v => orZ v d | None => d end.
Definition orUndefQ (x : option Q) (d : Q) : Q :=
  match x with Some v => orQ v d | None => d end.

(** ** The JavaScript [Map]: insertion-ordered, one entry per key *)

Module JsMap.
Definition t (V : Type) := list (string * V).

Definition empty {V} : t V := [].

Fixpoint get {V} (k : string) (m : t V) : option V :=
  match m with
  | [] => None
  | (k', v) :: m' => if String.eqb k' k then Some v else get k m'
  end.

Definition has {V} (k : string) (m : t V) : bool :=
  match get k m with Some _ => true | None => false end.

(** [set] overwrites in place when the key exists and appends otherwise. *)
Fixpoint set {V} (k : string) (v : V) (m : t V) : t V :=
  match m with
  | [] => [(k, v)]
  | (k', v') :: m' =>
      if String.eqb k' k then (k, v) :: m' else (k', v') :: set k v m'
  end.

Definition delete {V} (k : string) (m : t V) : t V :=
  filter (fun kv => negb (String.eqb (fst kv) k)) m.

(** [new Map(pairs)]: later pairs override earlier ones. *)
Definition ofList {V} (kvs : list (string * V)) : t V :=
  fold_left (fun m kv => set (fst kv) (snd kv) m) kvs empty.

Definition entries {V} (m : t V) : list (string * V) := m.
End JsMap.

(** ** Geometry *)

Definition Vec3 : Type := (Q * Q * Q).
Definition vx (v : Vec3) : Q := fst (fst v).
Definition vy (v : Vec3) : Q := snd (fst v).
Definition vz (v : Vec3) : Q := snd v.
Definition vec (x y z : Q) : Vec3 := (x, y, z).

Definition PATH : list Vec3 :=
  [ vec (-8) 0 8; vec (-4) 0 4; vec 0 0 0; vec 4 0 (-4); vec 8 0 (-8) ]%Q.

Definition lerp (a b t : Q) : Q := (a + (b - a) * t)%Q.
Definition lerpVec (a b : Vec3) (t : Q) : Vec3 :=
  (lerp (vx a) (vx b) t, lerp (vy a) (vy b) t, lerp (vz a) (vz b) t).

Definition dist `{JsBuiltins} (a b : Vec3) : Q :=
  let dx := (vx a - vx b)%Q in
  let dy := (vy a - vy b)%Q in
  let dz := (vz a - vz b)%Q in
  Math_sqrt (dx * dx + dy * dy + dz * dz)%Q.

(** [PATH[idx]]; [None] is [undefined]. *)
Definition PATH_at (idx : Z) : option Vec3 :=
  if idx <? 0 then None else nth_error PATH (Z.to_nat idx).

(** ** Tower table *)

Record TowerType := {
  key : string;
  name : string;
  cost : Z;
  range : Q;
  dmg : Z;
  fireRate : Q;
  splash : option Q
}.

Definition TOWER_basic : TowerType :=
  {| key := "basic"; name := "Básica"; cost := 30; range := 35 # 10;
     dmg := 1; fireRate := 8 # 10; splash := None |}.
Definition TOWER_fast : TowerType :=
  {| key := "fast"; name := "Rápida"; cost := 45; range := 3;
     dmg := 1; fireRate := 45 # 100; splash := None |}.
Definition TOWER_sniper : TowerType :=
  {| key := "sniper"; name := "Francotirador"; cost := 85; range := 9;
     dmg := 5; fireRate := 15 # 10; splash := None |}.
Definition TOWER_cannon : TowerType :=
  {| key := "cannon"; name := "Cañón"; cost := 100; range := 55 # 10;
     dmg := 2; fireRate := 12 # 10; splash := Some (22 # 10) |}.

(** The own properties of [TOWER_TYPES]: the four kinds. *)
Definition TOWER_TYPES (type : string) : option TowerType :=
  if String.eqb type "basic" then Some TOWER_basic
  else if String.eqb type "fast" then Some TOWER_fast
  else if String.eqb type "sniper" then Some TOWER_sniper
  else if String.eqb type "cannon" then Some TOWER_cannon
  else None.

(** [TOWER_TYPES] is a plain object: for the names of the properties of
    [Object.prototype] the lookup [TOWER_TYPES[type]] finds the inherited
    value, a function or an object, which is truthy and has none of
    [cost], [range], [dmg], [fireRate] and [splash].  For every other name
    outside the four kinds the lookup is [undefined]. *)
Definition inheritedKey (type : string) : bool :=
  existsb (String.eqb type)
    [ "constructor"; "toString"; "toLocaleString"; "valueOf";
      "hasOwnProperty"; "isPrototypeOf"; "propertyIsEnumerable";
      "__proto__"; "__defineGetter__"; "__defineSetter__";
      "__lookupGetter__"; "__lookupSetter__" ].

(** ** Entities and component state *)

(** An element of [enemies], together with the [progress] ref of the
    [EnemyMesh] mounted for it. *)
Record Enemy := {
  e_id : string;
  e_type : string;
  e_hp : Z;
  e_progress : Q
}.

(** A value of [enemyPositionsRef]: [{ pos, hp }]. *)
Record PosInfo := {
  pi_pos : Vec3;
  pi_hp : Z
}.

(** An element of [towers], together with the [lastShot] ref of its
    [TowerMesh]. *)
Record Tower := {
  t_id : string;
  t_pos : Vec3;
  t_type : string;
  t_level : Z;
  t_dmgBonus : Z;
  t_rangeBonus : Q;
  t_lastShot : Q
}.

(** An element of [projectiles], together with the mesh position of its
    [ProjectileMesh]. *)
Record Projectile := {
  p_id : string;
  p_from : Vec3;
  p_targetId : string;
  p_dmg : Z;
  p_splash : Q;
  p_position : Vec3
}.

(** The second argument of [onHit] when it is not [null]. *)
Record HitInfo := {
  h_targetId : string;
  h_splash : Q;
  h_hitPos : Vec3
}.

(** An element of [towers] as [JSON.stringify] writes it: the [lastShot]
    ref of its [TowerMesh] is no part of it. *)
Record SavedTower := {
  st_id : string;
  st_pos : Vec3;
  st_type : string;
  st_level : Z;
  st_dmgBonus : Z;
  st_rangeBonus : Q
}.

(** The object parsed from [localStorage]; a missing property is [None]. *)
Record Save := {
  s_money : option Z;
  s_lives : option Z;
  s_wave : option Z;
  s_towers : option (list SavedTower)
}.

(** A pending [setTimeout] of [nextWave]: its delay in milliseconds and the
    [currentWave] its callback has captured. *)
Record Timer := {
  tm_delay : Z;
  tm_wave : Z
}.

(** The state of [App] ([useState] values and [enemyPositionsRef]), with the
    browser state the callbacks act on: [localStorage], the [alert]s shown,
    the pending timers and the values [Math.random] is going to return. *)
Record State := {
  enemies : list Enemy;
  enemyPositionsRef : JsMap.t PosInfo;
  projectiles : list Projectile;
  towers : list Tower;
  money : Z;
  lives : Z;
  wave : Z;
  placingType : string;
  localStorage : option Save;
  alerts : list string;
  timers : list Timer;
  randoms : list Q
}.

(** The setters of [useState], applied to an updater function, and the
    writes to the ref and to the browser state. *)
Definition setEnemies (f : list Enemy -> list Enemy) (s : State) : State :=
  {| enemies := f (enemies s); enemyPositionsRef := enemyPositionsRef s;
     projectiles := projectiles s; towers := towers s; money := money s;
     lives := lives s; wave := wave s; placingType := placingType s;
     localStorage := localStorage s; alerts := alerts s; timers := timers s;
     randoms := randoms s |}.

Definition setPositions (f : JsMap.t PosInfo -> JsMap.t PosInfo) (s : State) : State :=
  {| enemies := enemies s; enemyPositionsRef := f (enemyPositionsRef s);
     projectiles := projectiles s; towers := towers s; money := money s;
     lives := lives s; wave := wave s; placingType := placingType s;
     localStorage := localStorage s; alerts := alerts s; timers := timers s;
     randoms := randoms s |}.

Definition setProjectiles (f : list Projectile -> list Projectile) (s : State) : State :=
  {| enemies := enemies s; enemyPositionsRef := enemyPositionsRef s;
     projectiles := f (projectiles s); towers := towers s; money := money s;
     lives := lives s; wave := wave s; placingType := placingType s;
     localStorage := localStorage s; alerts := alerts s; timers := timers s;
     randoms := randoms s |}.

Definition setTowers (f : list Tower -> list Tower) (s : State) : State :=
  {| enemies := enemies s; enemyPositionsRef := enemyPositionsRef s;
     projectiles := projectiles s; towers := f (towers s); money := money s;
     lives := lives s; wave := wave s; placingType := placingType s;
     localStorage := localStorage s; alerts := alerts s; timers := timers s;
     randoms := randoms s |}.

Definition setMoney (f : Z -> Z) (s : State) : State :=
  {| enemies := enemies s; enemyPositionsRef := enemyPositionsRef s;
     projectiles := projectiles s; towers := towers s; money := f (money s);
     lives := lives s; wave := wave s; placingType := placingType s;
     localStorage := localStorage s; alerts := alerts s; timers := timers s;
     randoms := randoms s |}.

Definition setLives (f : Z -> Z) (s : State) : State :=
  {| enemies := enemies s; enemyPositionsRef := enemyPositionsRef s;
     projectiles := projectiles s; towers := towers s; money := money s;
     lives := f (lives s); wave := wave s; placingType := placingType s;
     localStorage := localStorage s; alerts := alerts s; timers := timers s;
     randoms := randoms s |}.

Definition setWave (f : Z -> Z) (s : State) : State :=
  {| enemies := enemies s; enemyPositionsRef := enemyPositionsRef s;
     projectiles := projectiles s; towers := towers s; money := money s;
     lives := lives s; wave := f (wave s); placingType := placingType s;
     localStorage := localStorage s; alerts := alerts s; timers := timers s;
     randoms := randoms s |}.

Definition setPlacingType (k : string) (s : State) : State :=
  {| enemies := enemies s; enemyPositionsRef := enemyPositionsRef s;
     projectiles := projectiles s; towers := towers s; money := money s;
     lives := lives s; wave := wave s; placingType := k;
     localStorage := localStorage s; alerts := alerts s; timers := timers s;
     randoms := randoms s |}.

Definition setItem (v : Save) (s : State) : State :=
  {| enemies := enemies s; enemyPositionsRef := enemyPositionsRef s;
     projectiles := projectiles s; towers := towers s; money := money s;
     lives := lives s; wave := wave s; placingType := placingType s;
     localStorage := Some v; alerts := alerts s; timers := timers s;
     randoms := randoms s |}.

Definition alert (msg : string) (s : State) : State :=
  {| enemies := enemies s; enemyPositionsRef := enemyPositionsRef s;
     projectiles := projectiles s; towers := towers s; money := money s;
     lives := lives s; wave := wave s; placingType := placingType s;
     localStorage := localStorage s; alerts := alerts s ++ [msg];
     timers := timers s; randoms := randoms s |}.

Definition setTimers (f : list Timer -> list Timer) (s : State) : State :=
  {| enemies := enemies s; enemyPositionsRef := enemyPositionsRef s;
     projectiles := projectiles s; towers := towers s; money := money s;
     lives := lives s; wave := wave s; placingType := placingType s;
     localStorage := localStorage s; alerts := alerts s;
     timers := f (timers s); randoms := randoms s |}.

Definition setRandoms (rs : list Q) (s : State) : State :=
  {| enemies := enemies s; enemyPositionsRef := enemyPositionsRef s;
     projectiles := projectiles s; towers := towers s; money := money s;
     lives := lives s; wave := wave s; placingType := placingType s;
     localStorage := localStorage s; alerts := alerts s; timers := timers s;
     randoms := rs |}.

(** [Math.random()]: the next value of the stream held in the state (0 once
    the stream is used up). *)
Definition Math_random (s : State) : Q * State :=
  match randoms s with
  | [] => (0%Q, s)
  | r :: rs => (r, setRandoms rs s)
  end.

(** [Math.random().toString(36).slice(2,9)]. *)
Definition randomId `{JsBuiltins} (s : State) : string * State :=
  let (r, s') := Math_random s in (substring 2 7 (toString36 r), s').

(** The state of a freshly mounted [App]. *)
Definition initialState (storage : option Save) (rs : list Q) : State :=
  {| enemies := []; enemyPositionsRef := JsMap.empty; projectiles := [];
     towers := []; money := 100; lives := 10; wave := 0;
     placingType := "basic"; localStorage := storage; alerts := [];
     timers := []; randoms := rs |}.

(** [l[i] = f(l[i])] on an array. *)
Fixpoint updateAt {A} (i : nat) (f : A -> A) (l : list A) : list A :=
  match l, i with
  | [], _ => []
  | x :: l', O => f x :: l'
  | x :: l', S i' => x :: updateAt i' f l'
  end.

(** ** [EnemyMesh] *)

Definition baseSpeed (type : string) : Q :=
  if String.eqb type "fast" then 12 # 10
  else if String.eqb type "cannon" then 45 # 100
  else 7 # 10.

Definition withProgress (x : Q) (e : Enemy) : Enemy :=
  {| e_id := e_id e; e_type := e_type e; e_hp := e_hp e; e_progress := x |}.

(** [progress.current + baseSpeed * dt]. *)
Definition advanced `{JsBuiltins} (e : Enemy) (dt : Q) : Q :=
  num_add (e_progress e) (num_mul (num_lit (baseSpeed (e_type e))) dt).

(** [handleEnemyReachEnd], the [onReachEnd] of every [EnemyMesh]. *)
Definition handleEnemyReachEnd (id : string) (s : State) : State :=
  let s := setEnemies (filter (fun e => negb (String.eqb (e_id e) id))) s in
  let s := setPositions (JsMap.delete id) s in
  setLives (fun l => l - 1) s.

(** The [useFrame] callback of the [EnemyMesh] of [enemies[i]].  [None]: no
    such component, or a [TypeError] ([PATH[idx]] is [undefined]). *)
Definition EnemyMesh_frame `{JsBuiltins} (i : nat) (dt : Q) (s : State)
  : option State :=
  match nth_error (enemies s) i with
  | None => None
  | Some e =>
      let id := e_id e in
      let progress := advanced e dt in
      let s := setEnemies (updateAt i (withProgress progress)) s in
      let idx := Math_floor progress in
      let t := (progress - inject_Z idx)%Q in
      if Z.of_nat (List.length PATH) - 1 <=? idx then
        let s := setPositions (JsMap.delete id) s in
        Some (handleEnemyReachEnd id s)
      else
        match PATH_at idx, PATH_at (idx + 1) with
        | Some a, Some b =>
            let pos := lerpVec a b t in
            Some (setPositions
                    (JsMap.set id {| pi_pos := pos; pi_hp := e_hp e |}) s)
        | _, _ => None
        end
  end.

(** ** [App]: enemies, waves, projectiles *)

(** [spawnEnemy(type, hp)]; the new [EnemyMesh] mounts with [progress = 0]. *)
Definition spawnEnemy `{JsBuiltins} (type : string) (hp : Z) (s : State) : State :=
  let (id, s) := randomId s in
  setEnemies
    (fun prev => prev ++ [ {| e_id := id; e_type := type; e_hp := hp;
                              e_progress := 0 |} ]) s.

(** The callback [nextWave] hands to [setTimeout]. *)
Definition spawnTimeout `{JsBuiltins} (currentWave : Z) (s : State) : State :=
  let (r1, s) := Math_random s in
  let (t, s) :=
    if Qlt_bool r1 (Math_min (25 # 100) (inject_Z currentWave * (2 # 100)))
    then ("fast", s)
    else
      let (r2, s) := Math_random s in
      if Qlt_bool r2 (12 # 100) then ("cannon", s) else ("basic", s) in
  let hp :=
    if String.eqb t "cannon" then 6 + currentWave
    else 3 + Math_floor (inject_Z currentWave / 2) in
  spawnEnemy t hp s.

(** [spawnProjectile]; the new [ProjectileMesh] is placed at [from]. *)
Definition spawnProjectile `{JsBuiltins}
    (fromTowerId : string) (fromPos : Vec3) (targetId : string)
    (dmg : Z) (splash : Q) (s : State) : State :=
  let (id, s) := randomId s in
  setProjectiles
    (fun prev => prev ++ [ {| p_id := id; p_from := fromPos;
                              p_targetId := targetId; p_dmg := dmg;
                              p_splash := splash; p_position := fromPos |} ]) s.

Definition damage (d : Z) (e : Enemy) : Enemy :=
  {| e_id := e_id e; e_type := e_type e; e_hp := e_hp e - d;
     e_progress := e_progress e |}.

(** [updated.map(e => [e.id, e])], the object [e] being named by its index
    in [updated]. *)
Fixpoint idIndex (es : list Enemy) (i : nat) : list (string * nat) :=
  match es with
  | [] => []
  | e :: es' => (e_id e, i) :: idIndex es' (S i)
  end.

(** [new Map(updated.map(e => [e.id, e]))]. *)
Definition byId (updated : list Enemy) : JsMap.t nat :=
  JsMap.ofList (idIndex updated 0).

(** [(projectiles.find(p => p.id === projId)?.dmg) || 1]. *)
Definition projectileDmg (projs : list Projectile) (projId : string) : Z :=
  orUndefZ
    (option_map p_dmg (find (fun p => String.eqb (p_id p) projId) projs)) 1.

(** The test of the splash loop on [e]: [e] has an entry, and its cached
    position is at most [splash] away from [hitPos]. *)
Definition splashed `{JsBuiltins}
    (positions : JsMap.t PosInfo) (hitPos : Vec3) (splash : Q) (e : Enemy) : bool :=
  match JsMap.get (e_id e) positions with
  | None => false
  | Some posObj => Qle_bool (dist (pi_pos posObj) hitPos) splash
  end.

(** The splash loop over [updated]. *)
Definition splashDamage `{JsBuiltins}
    (positions : JsMap.t PosInfo) (hitPos : Vec3) (splash : Q) (d : Z)
    (updated : list Enemy) : list Enemy :=
  map (fun e => if splashed positions hitPos splash e then damage d e else e)
      updated.

(** [updated.filter(...)] with its two side effects: the reward counter and
    the eviction from [enemyPositionsRef]. *)
Fixpoint collectKills (es : list Enemy) (reward : Z) (positions : JsMap.t PosInfo)
  : list Enemy * Z * JsMap.t PosInfo :=
  match es with
  | [] => ([], reward, positions)
  | e :: es' =>
      if e_hp e <=? 0 then
        collectKills es' (reward + 10) (JsMap.delete (e_id e) positions)
      else
        let '(kept, reward', positions') := collectKills es' reward positions in
        (e :: kept, reward', positions')
  end.

(** [updated] after the direct and the splash damage of a hit whose target
    is the object at index [ti]. *)
Definition damaged `{JsBuiltins}
    (projs : list Projectile) (projId : string) (h : HitInfo)
    (positions : JsMap.t PosInfo) (ti : nat) (prev : list Enemy) : list Enemy :=
  let updated := updateAt ti (damage (projectileDmg projs projId)) prev in
  if negb (Qeq_bool (h_splash h) 0)
  then splashDamage positions (h_hitPos h) (h_splash h)
         (projectileDmg projs projId) updated
  else updated.

Section Render.
Context `{JsBuiltins}.

(** The state [App] was last rendered with: what the closures of the
    handlers see as [money], [wave], [towers], [projectiles] and
    [placingType].  The functional updates the handlers queue apply to
    the state they are given. *)
Variable r : State.

(** [nextWave]. *)
Definition nextWave (s : State) : State :=
  let s := setWave (fun w => w + 1) s in
  let currentWave := wave r + 1 in
  let count := 5 + Math_floor (inject_Z currentWave * (15 # 10)) in
  setTimers
    (fun pending =>
       pending ++ map (fun i => {| tm_delay := Z.of_nat i * 700;
                                   tm_wave := currentWave |})
                      (seq 0 (Z.to_nat count))) s.

(** [handleProjectileHit], the [onHit] of every [ProjectileMesh]. *)
Definition handleProjectileHit (projId : string) (hitInfo : option HitInfo)
    (s : State) : State :=
  let s := setProjectiles
             (filter (fun p => negb (String.eqb (p_id p) projId))) s in
  match hitInfo with
  | None => s
  | Some h =>
      let prev := enemies s in
      match JsMap.get (h_targetId h) (byId prev) with
      | None => s
      | Some ti =>
          let updated :=
            damaged (projectiles r) projId h (enemyPositionsRef s) ti prev in
          let '(kept, reward, positions) :=
            collectKills updated 0 (enemyPositionsRef s) in
          let s := setPositions (fun _ => positions) s in
          let s := if reward =? 0 then s
                   else setMoney (fun m => m + reward) s in
          setEnemies (fun _ => kept) s
      end
  end.

(** The effect on [enemies]: drop the projectiles whose target has no
    entry. *)
Definition cleanProjectiles (s : State) : State :=
  setProjectiles
    (filter (fun p => JsMap.has (p_targetId p) (enemyPositionsRef s))) s.
End Render.

(** ** [TowerMesh] *)

Definition withLastShot (x : Q) (t : Tower) : Tower :=
  {| t_id := t_id t; t_pos := t_pos t; t_type := t_type t;
     t_level := t_level t; t_dmgBonus := t_dmgBonus t;
     t_rangeBonus := t_rangeBonus t; t_lastShot := x |}.

(** [closest]: [{ id, pos, hp }]. *)
Record Closest := {
  c_id : string;
  c_pos : Vec3;
  c_hp : Z
}.

(** [d < minD], [None] being [Infinity]. *)
Definition ltMinD (d : Q) (minD : option Q) : bool :=
  match minD with
  | None => true
  | Some m => Qlt_bool d m
  end.

(** [d <= config.range + (tower.rangeBonus || 0)] for the entry's distance
    [d] to the tower. *)
Definition inRange `{JsBuiltins} (tower : Tower) (config : TowerType)
    (entry : string * PosInfo) : bool :=
  Qle_bool (dist (pi_pos (snd entry)) (t_pos tower))
           (num_add (num_lit (range config)) (orQ (t_rangeBonus tower) 0)).

(** One iteration of the loop over [enemyPositionsRef.current.entries()],
    on the pair [(closest, minD)]. *)
Definition scanEntry `{JsBuiltins} (tower : Tower) (config : TowerType)
    (acc : option Closest * option Q) (entry : string * PosInfo)
  : option Closest * option Q :=
  let p := pi_pos (snd entry) in
  let d := dist p (t_pos tower) in
  if inRange tower config entry && ltMinD d (snd acc)
  then (Some {| c_id := fst entry; c_pos := p; c_hp := pi_hp (snd entry) |},
        Some d)
  else acc.

Definition findClosest `{JsBuiltins} (tower : Tower) (config : TowerType)
    (positions : JsMap.t PosInfo) : option Closest :=
  fst (fold_left (scanEntry tower config) (JsMap.entries positions) (None, None)).

(** [TOWER_TYPES[tower.type] || TOWER_TYPES.basic], for a [tower.type] that
    names no inherited property. *)
Definition towerConfig (tower : Tower) : TowerType :=
  match TOWER_TYPES (t_type tower) with
  | Some c => c
  | None => TOWER_basic
  end.

(** [Math.max(0.12, config.fireRate)]. *)
Definition fireInterval `{JsBuiltins} (config : TowerType) : Q :=
  Math_max (num_lit (12 # 100)) (num_lit (fireRate config)).

(** The [useFrame] callback of the [TowerMesh] of [towers[i]].  [None]: no
    such component.

    When [tower.type] names an inherited property, [config] is that
    property: [config.fireRate] and [config.range] are [undefined],
    [fireInterval] and the range are [NaN], both comparisons are false, and
    the loop leaves [closest] at [null]: the callback only advances
    [lastShot]. *)
Definition TowerMesh_frame `{JsBuiltins} (i : nat) (dt : Q) (s : State)
  : option State :=
  match nth_error (towers s) i with
  | None => None
  | Some tower =>
      let lastShot := num_add (t_lastShot tower) dt in
      let s := setTowers (updateAt i (withLastShot lastShot)) s in
      if inheritedKey (t_type tower) then Some s
      else
        let config := towerConfig tower in
        if Qlt_bool lastShot (fireInterval config) then Some s
        else
          match findClosest tower config (enemyPositionsRef s) with
          | None => Some s
          | Some closest =>
              let s := setTowers (updateAt i (withLastShot 0)) s in
              let dmg := orZ (dmg config) 1 + orZ (t_dmgBonus tower) 0 in
              let splash := orUndefQ (option_map num_lit (splash config)) 0 in
              Some (spawnProjectile (t_id tower) (t_pos tower) (c_id closest)
                      dmg splash s)
          end
  end.

(** ** [ProjectileMesh] *)

Definition withPosition (x : Vec3) (p : Projectile) : Projectile :=
  {| p_id := p_id p; p_from := p_from p; p_targetId := p_targetId p;
     p_dmg := p_dmg p; p_splash := p_splash p; p_position := x |}.

(** The [useFrame] callback of the [ProjectileMesh] of [projectiles[i]];
    [r] is the render its [onHit] comes from.  [None]: no such component. *)
Definition ProjectileMesh_frame `{JsBuiltins} (r : State) (i : nat) (dt : Q)
    (s : State) : option State :=
  match nth_error (projectiles s) i with
  | None => None
  | Some p =>
      match JsMap.get (p_targetId p) (enemyPositionsRef s) with
      | None => Some (handleProjectileHit r (p_id p) None s)
      | Some target =>
          let to := pi_pos target in
          let pos := p_position p in
          let dir := (vx to - vx pos, vy to - vy pos, vz to - vz pos)%Q in
          let len :=
            Math_max (1 # 10000)
              (Math_sqrt (vx dir * vx dir + vy dir * vy dir + vz dir * vz dir)) in
          let pos' :=
            (vx pos + (vx dir / len) * 12 * dt,
             vy pos + (vy dir / len) * 12 * dt,
             vz pos + (vz dir / len) * 12 * dt)%Q in
          let s := setProjectiles (updateAt i (withPosition pos')) s in
          let d :=
            Math_sqrt (Math_pow (vx pos' - vx to) 2
                       + Math_pow (vz pos' - vz to) 2) in
          if Qlt_bool d (6 # 10) then
            Some (handleProjectileHit r (p_id p)
                    (Some {| h_targetId := p_targetId p;
                             h_splash := p_splash p; h_hitPos := pos' |}) s)
          else Some s
      end
  end.

(** ** [App]: the player's commands *)

Definition upgraded (cfg : TowerType) (t : Tower) : Tower :=
  {| t_id := t_id t; t_pos := t_pos t; t_type := t_type t;
     t_level := t_level t + 1;
     t_dmgBonus := orZ (t_dmgBonus t) 0
                   + Math_round (inject_Z (dmg cfg) * (6 # 10));
     t_rangeBonus := (orQ (t_rangeBonus t) 0 + (8 # 10))%Q;
     t_lastShot := t_lastShot t |}.

(** [Math.round(cfg.cost * Math.pow(1.6, t.level))]. *)
Definition upgradeCost (cfg : TowerType) (level : Z) : Z :=
  Math_round (inject_Z (cost cfg) * Math_pow (16 # 10) level).

(** What [JSON.stringify] keeps of a tower, and the tower a [TowerMesh]
    shows for a saved one: a component that stays mounted (there was a
    tower with the same key) keeps its [lastShot], a new one starts at
    [0]. *)
Definition toSaved (t : Tower) : SavedTower :=
  {| st_id := t_id t; st_pos := t_pos t; st_type := t_type t;
     st_level := t_level t; st_dmgBonus := t_dmgBonus t;
     st_rangeBonus := t_rangeBonus t |}.

Definition mountTower (mounted : list Tower) (st : SavedTower) : Tower :=
  {| t_id := st_id st; t_pos := st_pos st; t_type := st_type st;
     t_level := st_level st; t_dmgBonus := st_dmgBonus st;
     t_rangeBonus := st_rangeBonus st;
     t_lastShot :=
       match find (fun t => String.eqb (t_id t) (st_id st)) mounted with
       | Some t => t_lastShot t
       | None => 0
       end |}.

Section Commands.
Context `{JsBuiltins}.
Variable r : State.

(** [onPlaceTower(x, z)]; [placingType] is one of the four kinds. *)
Definition onPlaceTower (x z : Q) (s : State) : State :=
  let type := placingType r in
  match TOWER_TYPES type with
  | None => alert "Tipus de torre desconegut." s
  | Some cfg =>
      if money r <? cost cfg then alert "No tens suficients diners." s
      else
        let px := Math_round x in
        let pz := Math_round z in
        let pos := vec (inject_Z px) 0 (inject_Z pz) in
        let (id, s) := randomId s in
        let newTower :=
          {| t_id := id; t_pos := pos; t_type := type; t_level := 1;
             t_dmgBonus := 0; t_rangeBonus := 0; t_lastShot := 0 |} in
        let s := setTowers (fun prev => prev ++ [newTower]) s in
        setMoney (fun m => m - cost cfg) s
  end.

(** The [prev.map(t => ...)] of [upgradeTower], with the [alert] and
    [setMoney] its callback performs.  [None]: no state of the model, the
    kind of the tower being outside the four of the table; the code raises
    a [TypeError] ([TOWER_TYPES[t.type]] is [undefined]) or, for an
    inherited property, makes [money] and the damage bonus [NaN]. *)
Fixpoint upgradeMap (towerId : string) (prev : list Tower) (s : State)
  : option (list Tower * State) :=
  match prev with
  | [] => Some ([], s)
  | t :: prev' =>
      let step :=
        if negb (String.eqb (t_id t) towerId) then Some (t, s)
        else
          match TOWER_TYPES (t_type t) with
          | None => None
          | Some cfg =>
              let cost := upgradeCost cfg (t_level t) in
              if money r <? cost
              then Some (t, alert "No tens diners per millorar." s)
              else Some (upgraded cfg t, setMoney (fun m => m - cost) s)
          end in
      match step with
      | None => None
      | Some (t', s) =>
          match upgradeMap towerId prev' s with
          | None => None
          | Some (ts, s) => Some (t' :: ts, s)
          end
      end
  end.

(** [upgradeTower(towerId)]. *)
Definition upgradeTower (towerId : string) (s : State) : option State :=
  match upgradeMap towerId (towers s) s with
  | None => None
  | Some (ts, s) => Some (setTowers (fun _ => ts) s)
  end.

(** [sellTower(towerId)].  [None]: no state of the model, the kind of the
    tower being outside the four of the table (a [TypeError], or [money]
    becomes [NaN]). *)
Definition sellTower (towerId : string) (s : State) : option State :=
  let s := setTowers (filter (fun t => negb (String.eqb (t_id t) towerId))) s in
  match find (fun x => String.eqb (t_id x) towerId) (towers r) with
  | None => Some s
  | Some t =>
      match TOWER_TYPES (t_type t) with
      | None => None
      | Some cfg =>
          Some (setMoney
                  (fun m => m + Math_round (inject_Z (cost cfg) * (5 # 10))) s)
      end
  end.

(** [resetGame]. *)
Definition resetGame (s : State) : State :=
  let s := setEnemies (fun _ => []) s in
  let s := setProjectiles (fun _ => []) s in
  let s := setTowers (fun _ => []) s in
  let s := setMoney (fun _ => 100) s in
  let s := setLives (fun _ => 10) s in
  let s := setWave (fun _ => 0) s in
  setPositions (fun _ => JsMap.empty) s.

(** [saveGame]; [JSON.stringify] and [JSON.parse] are inverse on the
    saved object. *)
Definition saveGame (s : State) : State :=
  let save := {| s_money := Some (money r); s_lives := Some (lives r);
                 s_wave := Some (wave r);
                 s_towers := Some (map toSaved (towers r)) |} in
  alert "Partida guardada." (setItem save s).

(** [loadGame].  The [TowerMesh] components are keyed by the id of their
    tower: the loaded towers are mounted on the towers shown so far. *)
Definition loadGame (s : State) : State :=
  match localStorage s with
  | None => alert "No hi ha partida guardada." s
  | Some obj =>
      let s := setMoney (fun _ => orUndefZ (s_money obj) 100) s in
      let s := setLives (fun _ => orUndefZ (s_lives obj) 10) s in
      let s := setWave (fun _ => orUndefZ (s_wave obj) 0) s in
      setTowers (fun mounted => match s_towers obj with
                                | Some ts => map (mountTower mounted) ts
                                | None => []
                                end) s
  end.
End Commands.

(** ** The event loop

    The source fixes no order between the callbacks: timers, clicks and the
    [useFrame] callbacks of the mounted components are separate events.
    Each runs in the render that shows the current state ([r = s]); a frame
    delta is never negative.  The buttons that select the kind to place
    are those of the four kinds of the table.

    An event applies the functional updates its callback queues at once.
    React applies them when it next renders, after the other callbacks of
    the same frame; the handlers take the rendered state and the state
    their updates apply to as two arguments, so that what is proved of a
    handler holds for either order. *)

Fixpoint removeAt {A} (k : nat) (l : list A) : list A :=
  match l, k with
  | [], _ => []
  | _ :: l', O => l'
  | x :: l', S k' => x :: removeAt k' l'
  end.

Inductive Event : Type :=
  | EvSelectType (k : string)
  | EvPlaceTower (x z : Q)
  | EvUpgrade (towerId : string)
  | EvSell (towerId : string)
  | EvReset
  | EvSave
  | EvLoad
  | EvNextWave
  | EvTimeout (k : nat)
  | EvEnemyFrame (i : nat) (dt : Q)
  | EvTowerFrame (i : nat) (dt : Q)
  | EvProjectileFrame (i : nat) (dt : Q)
  | EvCleanProjectiles.

Definition fire `{JsBuiltins} (ev : Event) (s : State) : option State :=
  match ev with
  | EvSelectType k =>
      match TOWER_TYPES k with
      | Some _ => Some (setPlacingType k s)
      | None => None
      end
  | EvPlaceTower x z => Some (onPlaceTower s x z s)
  | EvUpgrade towerId => upgradeTower s towerId s
  | EvSell towerId => sellTower s towerId s
  | EvReset => Some (resetGame s)
  | EvSave => Some (saveGame s s)
  | EvLoad => Some (loadGame s)
  | EvNextWave => Some (nextWave s s)
  | EvTimeout k =>
      match nth_error (timers s) k with
      | None => None
      | Some tm => Some (spawnTimeout (tm_wave tm) (setTimers (removeAt k) s))
      end
  | EvEnemyFrame i dt =>
      if Qle_bool 0 dt then EnemyMesh_frame i dt s else None
  | EvTowerFrame i dt =>
      if Qle_bool 0 dt then TowerMesh_frame i dt s else None
  | EvProjectileFrame i dt =>
      if Qle_bool 0 dt then ProjectileMesh_frame s i dt s else None
  | EvCleanProjectiles => Some (cleanProjectiles s)
  end.

Inductive reachable `{JsBuiltins} : State -> Prop :=
  | reachable_init (storage : option Save) (rs : list Q) :
      reachable (initialState storage rs)
  | reachable_step (ev : Event) (s s' : State) :
      reachable s -> fire ev s = Some s' -> reachable s'.

(** The hit reports of one frame, resolved in the order they were produced;
    all of them come from the same render [r]. *)
Definition resolveReports `{JsBuiltins} (r : State)
    (reports : list (string * option HitInfo)) (s : State) : State :=
  fold_left (fun s rep => handleProjectileHit r (fst rep) (snd rep) s) reports s.

(** ** A concrete instance of the primitives, to run the model

    Numbers are rounded to the nearest double: 53 binary digits, ties to
    the even one, the exponent not being bounded.  [Math.sqrt] is the
    root to 120 binary digits after the point, rounded to a double;
    [toString(36)] prints a number of [[0,1)] with its digits in base 36,
    at most 8 of them. *)

Definition roundEven (x : Q) : Z :=
  let f := Qfloor x in
  match Qcompare (x - inject_Z f) (1 # 2) with
  | Lt => f
  | Gt => f + 1
  | Eq => if Z.even f then f else f + 1
  end.

Definition pow2 (e : Z) : Q := Qpower 2 e.

(** The double nearest to [q > 0]: [m * 2^e] with [2^52 <= m <= 2^53]. *)
Definition roundPositive (q : Q) : Q :=
  let k := Z.log2 (Qnum q) - Z.log2 (Zpos (Qden q)) in
  let e0 := k - 52 in
  let e := if Qle_bool (pow2 52) (q / pow2 e0) then e0 else e0 - 1 in
  Qred (inject_Z (roundEven (q / pow2 e)) * pow2 e).

Definition double (q : Q) : Q :=
  match Qcompare q 0 with
  | Eq => 0
  | Gt => roundPositive q
  | Lt => - roundPositive (- q)
  end.

(** The operations on doubles.  Rounding is monotone and keeps a double,
    so that the maxima below are the rounded results themselves whenever
    the arguments are doubles; they are written out to have the laws of
    the interface for every argument. *)
Definition double_lit (q : Q) : Q :=
  let r := double q in
  if Qle_bool 0 q then Math_max 0 r else r.

Definition double_add (a b : Q) : Q :=
  let r := double (double a + double b) in
  if Qle_bool 0 b then Math_max a r else r.

Definition double_mul (a b : Q) : Q :=
  let r := double (double a * double b) in
  if Qle_bool 0 a && Qle_bool 0 b then Math_max 0 r else r.

Definition sqrt_fixed (q : Q) : Q :=
  double (Z.sqrt (Qfloor (q * inject_Z (2 ^ 240))) # (2 ^ 120)).

Definition digit36 (d : Z) : ascii :=
  if d <? 10 then ascii_of_nat (48 + Z.to_nat d)
  else ascii_of_nat (87 + Z.to_nat d).

Fixpoint fraction36 (n : nat) (q : Q) : string :=
  match n with
  | O => EmptyString
  | S n' =>
      if Qeq_bool q 0 then EmptyString
      else
        let x := (q * 36)%Q in
        let d := Qfloor x in
        String (digit36 d) (fraction36 n' (x - inject_Z d)%Q)
  end.

Definition toString36_fixed (q : Q) : string :=
  if Qeq_bool q 0 then "0" else String "0" (String "." (fraction36 8 q)).

Definition js : JsBuiltins.
Proof.
  refine {| Math_sqrt := sqrt_fixed; toString36 := toString36_fixed;
            num_lit := double_lit; num_add := double_add;
            num_mul := double_mul |}.
  - intros q Hq. unfold double_lit.
    rewrite (proj2 (Qle_bool_iff 0 q) Hq). unfold Math_max.
    destruct (Qle_bool 0 (double q)) eqn:E.
    + apply Qle_bool_imp_le. exact E.
    + apply Qle_refl.
  - intros x y Hx Hy. unfold double_mul.
    rewrite (proj2 (Qle_bool_iff 0 x) Hx), (proj2 (Qle_bool_iff 0 y) Hy).
    cbn [andb]. unfold Math_max.
    destruct (Qle_bool 0 (double (double x * double y))) eqn:E.
    + apply Qle_bool_imp_le. exact E.
    + apply Qle_refl.
  - intros x y Hy. unfold double_add.
    rewrite (proj2 (Qle_bool_iff 0 y) Hy). unfold Math_max.
    destruct (Qle_bool x (double (double x + double y))) eqn:E.
    + apply Qle_bool_imp_le. exact E.
    + apply Qle_refl.
Defined.

(** ** Vocabulary of the statements *)

(** [e.id === id]. *)
Definition hasId (id : string) (e : Enemy) : bool := String.eqb (e_id e) id.

(** [e.hp <= 0], the test of the filter that collects the kills, and its
    negation; the eviction of a list of killed enemies. *)
Definition dead (e : Enemy) : bool := e_hp e <=? 0.
Definition alive (e : Enemy) : bool := negb (e_hp e <=? 0).

Definition evict (killed : list Enemy) (positions : JsMap.t PosInfo)
  : JsMap.t PosInfo :=
  fold_left (fun m e => JsMap.delete (e_id e) m) killed positions.

(** The number of path segments, [PATH.length - 1]. *)
Definition segments : Z := Z.of_nat (List.length PATH) - 1.

(** [s'] has the live set and the position map of [s]. *)
Definition sameField (s s' : State) : Prop :=
  enemies s' = enemies s /\ enemyPositionsRef s' = enemyPositionsRef s.

(** What holds of the live set and the position map in every reachable
    state: an entry belongs to an enemy of the live set, and every enemy of
    the live set is on the path. *)
Definition onPath (e : Enemy) : Prop :=
  (0 <= e_progress e)%Q /\ Math_floor (e_progress e) < segments.

Definition entriesLive (s : State) : Prop :=
  (forall id, JsMap.has id (enemyPositionsRef s) = true ->
              exists e, In e (enemies s) /\ e_id e = id)
  /\ (forall e, In e (enemies s) -> onPath e).

(** The ids of the live set are pairwise distinct; the states reached
    from a mounted [App] through states in which they are. *)
Definition distinctIds (s : State) : Prop := NoDup (map e_id (enemies s)).

Inductive reachableDistinct `{JsBuiltins} : State -> Prop :=
  | distinct_init (storage : option Save) (rs : list Q) :
      reachableDistinct (initialState storage rs)
  | distinct_step (ev : Event) (s s' : State) :
      reachableDistinct s -> fire ev s = Some s' -> distinctIds s' ->
      reachableDistinct s'.

(** Every enemy of the live set has an entry, unless its progress is
    still the 0 its [EnemyMesh] was mounted with. *)
Definition published (s : State) : Prop :=
  forall e, In e (enemies s) ->
    JsMap.has (e_id e) (enemyPositionsRef s) = true \/ e_progress e = 0%Q.

(** ** Sample inputs *)

Definition origin : Vec3 := vec 0 0 0.

Definition mkState (es : list Enemy) (ps : JsMap.t PosInfo)
    (prs : list Projectile) (ts : list Tower) (m : Z) : State :=
  {| enemies := es; enemyPositionsRef := ps; projectiles := prs; towers := ts;
     money := m; lives := 10; wave := 1; placingType := "basic";
     localStorage := None; alerts := []; timers := []; randoms := [] |}.

Definition mkEnemy (id : string) (hp : Z) : Enemy :=
  {| e_id := id; e_type := "basic"; e_hp := hp; e_progress := 2 |}.

Definition mkProjectile (id target : string) (d : Z) (sp : Q) : Projectile :=
  {| p_id := id; p_from := origin; p_targetId := target; p_dmg := d;
     p_splash := sp; p_position := origin |}.

Definition atOrigin (hp : Z) : PosInfo := {| pi_pos := origin; pi_hp := hp |}.

(** A projectile whose stored damage is [0], about to hit an enemy with 3
    hit points; and two projectiles that carry the same id. *)
Definition zeroDamage : State :=
  mkState [mkEnemy "e1" 3] [("e1", atOrigin 3)]
          [mkProjectile "p1" "e1" 0 0] [] 100.

Definition sharedId : State :=
  mkState [mkEnemy "e1" 9] [("e1", atOrigin 9)]
          [mkProjectile "p1" "e1" 5 0; mkProjectile "p1" "e1" 1 0] [] 100.

Definition plainHit : HitInfo :=
  {| h_targetId := "e1"; h_splash := 0; h_hitPos := origin |}.

(** Two cannon shells reach the enemy ["b"] in the same frame; ["a"] stands
    next to it. *)
Definition twoShells : State :=
  mkState [mkEnemy "b" 1; mkEnemy "a" 5]
          [("b", atOrigin 1); ("a", atOrigin 5)]
          [mkProjectile "p1" "b" 2 (22 # 10); mkProjectile "p2" "b" 2 (22 # 10)]
          [] 100.

Definition shellHit : HitInfo :=
  {| h_targetId := "b"; h_splash := 22 # 10; h_hitPos := origin |}.

Definition twoShells_first : State :=
  @handleProjectileHit js twoShells "p1" (Some shellHit) twoShells.

Definition twoShells_second : State :=
  @handleProjectileHit js twoShells "p2" (Some shellHit) twoShells_first.

(** A run of events; [None] when one of them cannot fire. *)
Fixpoint run `{JsBuiltins} (evs : list Event) (s : State) : option State :=
  match evs with
  | [] => Some s
  | ev :: evs' =>
      match fire ev s with
      | Some s' => run evs' s'
      | None => None
      end
  end.

(** A new game in which a basic tower is built on the first waypoint, the
    first wave is started and its first timer fires. *)
Definition freshGame : State :=
  initialState None [1 # 3; 1 # 2; 3 # 10; 99 # 100; 5 # 100].

Definition firstSpawn : list Event :=
  [EvPlaceTower (-8) 8; EvNextWave; EvTimeout 0].

Definition justSpawned : State :=
  match run (H := js) firstSpawn freshGame with
  | Some s => s
  | None => freshGame
  end.

(** The same game after the first frame of the spawned enemy. *)
Definition firstFrame : State :=
  match run (H := js) (firstSpawn ++ [EvEnemyFrame 0 (1 # 10)]) freshGame with
  | Some s => s
  | None => freshGame
  end.

(** A run of events through states whose live set has distinct ids. *)
Fixpoint distinctb (ids : list string) : bool :=
  match ids with
  | [] => true
  | id :: ids' => negb (existsb (String.eqb id) ids') && distinctb ids'
  end.

Fixpoint runDistinct `{JsBuiltins} (evs : list Event) (s : State) : option State :=
  match evs with
  | [] => Some s
  | ev :: evs' =>
      match fire ev s with
      | Some s' =>
          if distinctb (map e_id (enemies s')) then runDistinct evs' s' else None
      | None => None
      end
  end.

(** A game in which [Math.random] returns the same number for the ids of
    the first two enemies: both are called ["9"].  A sniper tower stands on
    the first waypoint; both enemies have had a frame when the tower
    fires, and the shot kills the enemy the id names, the second one. *)
Definition twinGame : State :=
  initialState None [1 # 3; 1 # 2; 1 # 2; 1 # 4; 1 # 2; 1 # 2; 1 # 4; 1 # 5].

Definition twinKill : list Event :=
  [ EvSelectType "sniper"; EvPlaceTower (-8) 8; EvNextWave;
    EvTimeout 0; EvTimeout 0;
    EvEnemyFrame 0 (1 # 10); EvEnemyFrame 1 (1 # 10);
    EvTowerFrame 0 2; EvProjectileFrame 0 (3 # 100) ].

Definition twinSurvivor : State :=
  match run (H := js) twinKill twinGame with
  | Some s => s
  | None => twinGame
  end.

(** An enemy close to the last waypoint. *)
Definition nearEnd : State :=
  mkState [ {| e_id := "e1"; e_type := "basic"; e_hp := 3;
               e_progress := 39 # 10 |} ]
          [("e1", {| pi_pos := vec (76 # 10) 0 (-76 # 10); pi_hp := 3 |})]
          [] [] 100.

(** A basic tower at the origin, of level 1, that has waited one second. *)
Definition basicTower : Tower :=
  {| t_id := "t1"; t_pos := origin; t_type := "basic"; t_level := 1;
     t_dmgBonus := 0; t_rangeBonus := 0; t_lastShot := 1 |}.


(** A projectile whose target has left the position map. *)
Definition lostTarget : State :=
  mkState [mkEnemy "e2" 3] [("e2", atOrigin 3)]
          [mkProjectile "p1" "e1" 1 0] [] 100.

(** A save written with no money, no lives and before the first wave. *)
Definition emptySave : Save :=
  {| s_money := Some 0; s_lives := Some 0; s_wave := Some 0;
     s_towers := Some [] |}.

Definition withEmptySave : State := initialState (Some emptySave) [].

(** ** Further vocabulary and sample inputs *)



(** The distance [TowerMesh] computes for an entry. *)
Definition distanceTo `{JsBuiltins} (tower : Tower) (entry : string * PosInfo) : Q :=
  dist (pi_pos (snd entry)) (t_pos tower).

(** [t.id !== towerId], the test of the filter of [sellTower]. *)
Definition otherTower (towerId : string) (t : Tower) : bool :=
  negb (String.eqb (t_id t) towerId).

(** What a game keeps when it is started without a stored save: the wave
    counter is not negative, a pending timer belongs to a wave from 1 on, a
    stored wave is not negative, and every enemy of the live set has
    positive hit points. *)
Definition healthy (s : State) : Prop :=
  0 <= wave s
  /\ (forall tm, In tm (timers s) -> 1 <= tm_wave tm)
  /\ (forall obj w, localStorage s = Some obj -> s_wave obj = Some w -> 0 <= w)
  /\ (forall e, In e (enemies s) -> 0 < e_hp e).

(** Two entries in range of [basicTower], the nearer one second. *)
Definition twoInRange : State :=
  mkState [mkEnemy "far" 3; mkEnemy "near" 3]
          [("far", {| pi_pos := vec 3 0 0; pi_hp := 3 |});
           ("near", {| pi_pos := vec 1 0 0; pi_hp := 3 |})]
          [] [basicTower] 100.

(** A projectile in flight towards ["e1"] and one whose target is gone. *)
Definition inFlight : State :=
  mkState [mkEnemy "e1" 3] [("e1", {| pi_pos := vec 6 0 0; pi_hp := 3 |})]
          [mkProjectile "p1" "e1" 1 0; mkProjectile "p2" "e9" 1 0] [] 100.

(** [closest] built from an entry, as the loop of [TowerMesh] does. *)
Definition closestOf (entry : string * PosInfo) : Closest :=
  {| c_id := fst entry; c_pos := pi_pos (snd entry); c_hp := pi_hp (snd entry) |}.

(** [entry] is the nearest entry of [l] in range of [tower], and the first
    one at that distance. *)
Definition nearestInRange `{JsBuiltins} (tower : Tower) (config : TowerType)
    (l : list (string * PosInfo)) (entry : string * PosInfo) : Prop :=
  exists pre post,
    l = pre ++ entry :: post
    /\ inRange tower config entry = true
    /\ (forall e, In e pre -> inRange tower config e = true ->
                  (distanceTo tower entry < distanceTo tower e)%Q)
    /\ (forall e, In e post -> inRange tower config e = true ->
                  (distanceTo tower entry <= distanceTo tower e)%Q).

(** [s'] has the enemies, the wave, the timers, the storage and the lives
    of [s]. *)
Definition keepsGame (s s' : State) : Prop :=
  enemies s' = enemies s /\ wave s' = wave s /\ timers s' = timers s
  /\ localStorage s' = localStorage s /\ lives s' = lives s.

(** The first wave started in a new game. *)
Definition waveStarted : State := nextWave freshGame freshGame.

(** The shot [basicTower] fires in [twoInRange], and the state after it. *)
Definition shotAtNear : Projectile :=
  {| p_id := ""; p_from := origin; p_targetId := "near"; p_dmg := 1;
     p_splash := 0; p_position := origin |}.

Definition firedAtNear : State :=
  setProjectiles (fun _ => [shotAtNear])
    (setTowers (fun _ => [withLastShot 0 basicTower]) twoInRange).

(** * Properties *)

#[local] Arguments Z.mul : simpl never.
#[local] Arguments Z.of_nat : simpl never.

(** ** The map *)

Module JsMapFacts.
Import JsMap.

Lemma get_set_same {V} (k : string) (v : V) (m : t V) :
  get k (set k v m) = Some v.
Proof.
  induction m as [|[k' v'] m IH]; simpl.
  - now rewrite String.eqb_refl.
  - destruct (String.eqb k' k) eqn:E; simpl.
    + now rewrite String.eqb_refl.
    + now rewrite E.
Qed.

Lemma get_set_other {V} (k k' : string) (v : V) (m : t V) :
  k <> k' -> get k' (set k v m) = get k' m.
Proof.
  intros Hk. induction m as [|[k0 v0] m IH]; simpl.
  - destruct (String.eqb_spec k k'); congruence.
  - destruct (String.eqb_spec k0 k) as [->|Hne]; simpl.
    + destruct (String.eqb_spec k k'); congruence.
    + destruct (String.eqb_spec k0 k'); auto.
Qed.

Lemma get_delete_same {V} (k : string) (m : t V) :
  get k (delete k m) = None.
Proof.
  induction m as [|[k0 v0] m IH]; simpl; auto.
  destruct (String.eqb_spec k0 k) as [->|Hne]; simpl; auto.
  destruct (String.eqb_spec k0 k); congruence.
Qed.

Lemma get_delete_other {V} (k k' : string) (m : t V) :
  k <> k' -> get k' (delete k m) = get k' m.
Proof.
  intros Hk. induction m as [|[k0 v0] m IH]; simpl; auto.
  destruct (String.eqb_spec k0 k) as [->|Hne]; simpl.
  - destruct (String.eqb_spec k k'); congruence.
  - destruct (String.eqb_spec k0 k'); auto.
Qed.

Lemma get_delete_Some {V} (k k' : string) (m : t V) (v : V) :
  get k' (delete k m) = Some v -> k <> k' /\ get k' m = Some v.
Proof.
  intros Hg. destruct (String.eqb_spec k k') as [->|Hne].
  - now rewrite get_delete_same in Hg.
  - split; auto. now rewrite get_delete_other in Hg.
Qed.

Lemma has_true {V} (k : string) (m : t V) :
  has k m = true <-> exists v, get k m = Some v.
Proof.
  unfold has. destruct (get k m); split; intros Hx; eauto; try discriminate.
  now destruct Hx.
Qed.

End JsMapFacts.

(** ** Arrays *)

Lemma Some_eq {A} (x y : A) : Some x = Some y -> x = y.
Proof. congruence. Qed.

Lemma nth_error_updateAt {A} (f : A -> A) (l : list A) (i j : nat) :
  nth_error (updateAt i f l) j
  = if Nat.eqb i j then option_map f (nth_error l j) else nth_error l j.
Proof.
  revert i j. induction l as [|x l IH]; intros [|i] [|j]; simpl; auto.
  - now destruct (Nat.eqb _ _).
Qed.

Lemma map_updateAt {A B} (g : A -> B) (f : A -> A) (l : list A) (i : nat) :
  (forall x, g (f x) = g x) -> map g (updateAt i f l) = map g l.
Proof.
  intros Hg. revert i. induction l as [|x l IH]; intros [|i]; simpl; auto.
  - now rewrite Hg.
  - now rewrite IH.
Qed.

(** ** [byId]: the object a key names is the last one carrying it *)

Lemma byId_fold (id : string) (es : list Enemy) (n : nat) (m : JsMap.t nat) :
  match JsMap.get id
          (fold_left (fun m kv => JsMap.set (fst kv) (snd kv) m) (idIndex es n) m)
  with
  | Some ti =>
      (existsb (hasId id) es = false /\ JsMap.get id m = Some ti)
      \/ (exists e, (n <= ti)%nat /\ nth_error es (ti - n) = Some e /\ e_id e = id)
  | None => existsb (hasId id) es = false /\ JsMap.get id m = None
  end.
Proof.
  revert n m. induction es as [|e es IH]; intros n m; simpl.
  - destruct (JsMap.get id m); auto.
  - specialize (IH (S n) (JsMap.set (e_id e) n m)). simpl in IH.
    destruct (JsMap.get id (fold_left _ (idIndex es (S n)) _)) as [ti|].
    + destruct IH as [[Hno Hg]|(e' & Hle & Hn & Hid)].
      * unfold hasId at 1. destruct (String.eqb_spec (e_id e) id) as [He|He]; simpl.
        -- right. exists e. rewrite He, JsMapFacts.get_set_same in Hg.
           injection Hg as <-. rewrite Nat.sub_diag. auto.
        -- left. split; auto. now rewrite JsMapFacts.get_set_other in Hg.
      * right. exists e'. split; [lia|]. split; auto.
        replace (ti - n)%nat with (S (ti - S n)) by lia. exact Hn.
    + destruct IH as [Hno Hg]. unfold hasId at 1.
      destruct (String.eqb_spec (e_id e) id) as [He|He]; simpl.
      * rewrite He, JsMapFacts.get_set_same in Hg. discriminate.
      * split; auto. now rewrite JsMapFacts.get_set_other in Hg.
Qed.

Lemma byId_Some (id : string) (es : list Enemy) (ti : nat) :
  JsMap.get id (byId es) = Some ti ->
  exists e, nth_error es ti = Some e /\ e_id e = id.
Proof.
  intros Hg. pose proof (byId_fold id es 0 JsMap.empty) as Hf.
  unfold byId, JsMap.ofList in Hg. rewrite Hg in Hf.
  destruct Hf as [[_ Hf]|(e & _ & Hn & Hid)]; [discriminate|].
  rewrite Nat.sub_0_r in Hn. eauto.
Qed.

Lemma byId_None (id : string) (es : list Enemy) :
  JsMap.get id (byId es) = None <-> existsb (hasId id) es = false.
Proof.
  pose proof (byId_fold id es 0 JsMap.empty) as Hf.
  unfold byId, JsMap.ofList. split; intros Hx.
  - rewrite Hx in Hf. tauto.
  - destruct (JsMap.get id (fold_left _ _ _)) as [ti|]; auto.
    destruct Hf as [[_ Hf]|(e & _ & Hn & Hid)]; [discriminate|].
    apply nth_error_In in Hn.
    assert (existsb (hasId id) es = true) as Ht.
    { apply existsb_exists. exists e. split; auto. unfold hasId.
      now apply String.eqb_eq. }
    congruence.
Qed.

Lemma byId_In (id : string) (es : list Enemy) (e : Enemy) :
  In e es -> e_id e = id -> exists ti, JsMap.get id (byId es) = Some ti.
Proof.
  intros Hin Hid. destruct (JsMap.get id (byId es)) as [ti|] eqn:Hg; eauto.
  apply byId_None in Hg.
  assert (existsb (hasId id) es = true) as Ht.
  { apply existsb_exists. exists e. split; auto. unfold hasId.
    now apply String.eqb_eq. }
  congruence.
Qed.

(** ** Damage resolution *)

Lemma collectKills_spec (es : list Enemy) (reward : Z) (positions : JsMap.t PosInfo) :
  collectKills es reward positions
  = (filter alive es,
     reward + 10 * Z.of_nat (List.length (filter dead es)),
     evict (filter dead es) positions).
Proof.
  revert reward positions. induction es as [|e es IH]; intros reward positions.
  - simpl. now rewrite Z.add_0_r.
  - simpl. unfold alive, dead. destruct (e_hp e <=? 0) eqn:E; simpl.
    + rewrite IH. fold alive dead. f_equal. f_equal.
      rewrite Nat2Z.inj_succ. lia.
    + rewrite IH. reflexivity.
Qed.

Lemma length_filter_split (es : list Enemy) :
  (List.length (filter alive es) + List.length (filter dead es))%nat
  = List.length es.
Proof.
  induction es as [|e es IH]; simpl; auto.
  unfold alive, dead in *. destruct (e_hp e <=? 0); simpl; lia.
Qed.

Lemma get_evict (id : string) (killed : list Enemy) (positions : JsMap.t PosInfo) :
  JsMap.get id (evict killed positions)
  = if existsb (hasId id) killed then None else JsMap.get id positions.
Proof.
  unfold evict. revert positions.
  induction killed as [|e killed IH]; intros positions; simpl; auto.
  rewrite IH. unfold hasId at 2.
  destruct (String.eqb_spec (e_id e) id) as [He|He]; simpl.
  - rewrite He, JsMapFacts.get_delete_same. now destruct (existsb _ _).
  - now rewrite JsMapFacts.get_delete_other.
Qed.

Section Resolution.
Context `{JsBuiltins}.

Lemma map_id_damaged projs projId h positions ti prev :
  map e_id (damaged projs projId h positions ti prev) = map e_id prev.
Proof.
  unfold damaged, splashDamage.
  destruct (negb _).
  - rewrite map_map. rewrite <- (map_updateAt e_id (damage (projectileDmg projs projId)) prev ti)
      by reflexivity.
    apply map_ext. intros e. now destruct (splashed _ _ _ e).
  - now apply map_updateAt.
Qed.

Lemma length_damaged projs projId h positions ti prev :
  List.length (damaged projs projId h positions ti prev) = List.length prev.
Proof.
  rewrite <- (length_map e_id), map_id_damaged. apply length_map.
Qed.

(** The hit points of the object at index [j] after the damage of one
    report: the direct damage if [j] is the target, and the same amount
    again if the splash loop runs and its test holds for the object. *)
Lemma nth_error_damaged projs projId h positions ti prev j e :
  nth_error prev j = Some e ->
  let d := projectileDmg projs projId in
  let direct := if Nat.eqb ti j then d else 0 in
  let again :=
    if negb (Qeq_bool (h_splash h) 0)
       && splashed positions (h_hitPos h) (h_splash h) e then d else 0 in
  exists e',
    nth_error (damaged projs projId h positions ti prev) j = Some e'
    /\ e_id e' = e_id e /\ e_type e' = e_type e
    /\ e_progress e' = e_progress e
    /\ e_hp e' = e_hp e - direct - again.
Proof.
  intros Hn d direct again. unfold damaged. fold d.
  assert (nth_error (updateAt ti (damage d) prev) j
          = Some (if Nat.eqb ti j then damage d e else e)) as Hu.
  { rewrite nth_error_updateAt, Hn. now destruct (Nat.eqb ti j). }
  assert (splashed positions (h_hitPos h) (h_splash h)
                   (if Nat.eqb ti j then damage d e else e)
          = splashed positions (h_hitPos h) (h_splash h) e) as Hs.
  { unfold splashed. now destruct (Nat.eqb ti j). }
  subst direct again.
  destruct (negb (Qeq_bool (h_splash h) 0)); simpl.
  - unfold splashDamage. rewrite nth_error_map, Hu. simpl. rewrite Hs.
    destruct (splashed _ _ _ e), (Nat.eqb ti j); simpl;
      eexists; repeat split; simpl; lia.
  - rewrite Hu. destruct (Nat.eqb ti j); simpl;
      eexists; repeat split; simpl; lia.
Qed.

Lemma handleProjectileHit_null (r : State) projId s :
  handleProjectileHit r projId None s
  = setProjectiles (filter (fun p => negb (String.eqb (p_id p) projId))) s.
Proof. reflexivity. Qed.

Lemma handleProjectileHit_gone (r : State) projId h s :
  JsMap.get (h_targetId h) (byId (enemies s)) = None ->
  handleProjectileHit r projId (Some h) s
  = setProjectiles (filter (fun p => negb (String.eqb (p_id p) projId))) s.
Proof. intros Hg. unfold handleProjectileHit. simpl. now rewrite Hg. Qed.

Lemma handleProjectileHit_hit (r : State) projId h s ti :
  JsMap.get (h_targetId h) (byId (enemies s)) = Some ti ->
  let updated :=
    damaged (projectiles r) projId h (enemyPositionsRef s) ti (enemies s) in
  let s' := handleProjectileHit r projId (Some h) s in
  enemies s' = filter alive updated
  /\ enemyPositionsRef s' = evict (filter dead updated) (enemyPositionsRef s)
  /\ money s' = money s + 10 * Z.of_nat (List.length (filter dead updated))
  /\ lives s' = lives s
  /\ towers s' = towers s
  /\ projectiles s'
     = filter (fun p => negb (String.eqb (p_id p) projId)) (projectiles s).
Proof.
  intros Hg updated s'. subst s'. unfold handleProjectileHit. simpl.
  rewrite Hg. fold updated. rewrite collectKills_spec. simpl.
  destruct (10 * Z.of_nat (List.length (filter dead updated)) =? 0) eqn:E; simpl.
  - apply Z.eqb_eq in E. repeat split; auto. lia.
  - repeat split; auto.
Qed.

Lemma handleProjectileHit_absent (r : State) projId h s :
  (forall e, In e (enemies s) -> e_id e <> h_targetId h) ->
  handleProjectileHit r projId (Some h) s
  = setProjectiles (filter (fun p => negb (String.eqb (p_id p) projId))) s.
Proof.
  intros Hno. apply handleProjectileHit_gone, byId_None.
  destruct (existsb _ _) eqn:E; auto.
  apply existsb_exists in E. destruct E as (e & He & Hid).
  unfold hasId in Hid. apply String.eqb_eq in Hid.
  now apply Hno in He.
Qed.
End Resolution.

(** ** Towers: what a shot carries *)

Lemma orZ_zero (x : Z) : orZ x 0 = x.
Proof. unfold orZ. destruct (Z.eqb_spec x 0); congruence. Qed.

Lemma TOWER_TYPES_cases (type : string) (c : TowerType) :
  TOWER_TYPES type = Some c ->
  c = TOWER_basic \/ c = TOWER_fast \/ c = TOWER_sniper \/ c = TOWER_cannon.
Proof.
  unfold TOWER_TYPES.
  repeat match goal with |- context [String.eqb ?a ?b] => destruct (String.eqb a b) end;
    intros Hc; inversion Hc; auto.
Qed.

Lemma towerConfig_cases (tower : Tower) :
  let c := towerConfig tower in
  c = TOWER_basic \/ c = TOWER_fast \/ c = TOWER_sniper \/ c = TOWER_cannon.
Proof.
  unfold towerConfig. destruct (TOWER_TYPES (t_type tower)) eqn:E; auto.
  eapply TOWER_TYPES_cases; eauto.
Qed.

Lemma towerConfig_dmg (tower : Tower) :
  orZ (dmg (towerConfig tower)) 1 = dmg (towerConfig tower).
Proof.
  destruct (towerConfig_cases tower) as [E|[E|[E|E]]]; rewrite E; reflexivity.
Qed.

Section Shots.
Context `{JsBuiltins}.

Lemma projectiles_spawnProjectile fromTowerId fromPos targetId d sp s :
  projectiles (spawnProjectile fromTowerId fromPos targetId d sp s)
  = projectiles s
    ++ [ {| p_id := fst (randomId s); p_from := fromPos;
            p_targetId := targetId; p_dmg := d; p_splash := sp;
            p_position := fromPos |} ].
Proof.
  unfold spawnProjectile, randomId, Math_random.
  destruct (randoms s); reflexivity.
Qed.

Lemma spawnProjectile_rest fromTowerId fromPos targetId d sp s :
  let s' := spawnProjectile fromTowerId fromPos targetId d sp s in
  enemies s' = enemies s /\ enemyPositionsRef s' = enemyPositionsRef s
  /\ towers s' = towers s /\ money s' = money s /\ lives s' = lives s.
Proof.
  unfold spawnProjectile, randomId, Math_random.
  destruct (randoms s); simpl; auto.
Qed.

(** A tower's frame leaves the projectiles alone or adds one, which
    carries the tower's damage of that moment. *)
Lemma TowerMesh_frame_projectiles i dt s s' tower :
  nth_error (towers s) i = Some tower ->
  TowerMesh_frame i dt s = Some s' ->
  projectiles s' = projectiles s
  \/ exists id target,
       projectiles s'
       = projectiles s
         ++ [ {| p_id := id; p_from := t_pos tower; p_targetId := target;
                 p_dmg := dmg (towerConfig tower) + t_dmgBonus tower;
                 p_splash :=
                   orUndefQ (option_map num_lit (splash (towerConfig tower))) 0;
                 p_position := t_pos tower |} ].
Proof.
  intros Hn. unfold TowerMesh_frame. rewrite Hn.
  destruct (inheritedKey _); [intros [= <-]; now left|].
  destruct (Qlt_bool _ _); [intros [= <-]; now left|].
  destruct (findClosest _ _ _) as [c|]; [|intros [= <-]; now left].
  intros [= <-]. right. rewrite projectiles_spawnProjectile. simpl.
  rewrite towerConfig_dmg, orZ_zero. eauto.
Qed.
End Shots.

(** ** C1, C2: the damage of a hit *)

Section Hits.
Context `{JsBuiltins}.

(** C1 (amended).  The direct damage of a hit whose target is in the live
    set is looked up when the hit is resolved: it is the damage stored in
    the first entry of the rendered projectile list that carries the
    report's projectile id, when there is one and that damage is not 0,
    and the fallback 1 otherwise.  The stored damage is the one
    [TowerMesh] computed when it fired: base damage of the kind plus the
    tower's damage bonus. *)
Theorem direct_damage_is_looked_up
    (r s : State) (projId : string) (h : HitInfo) (target : Enemy) :
  In target (enemies s) ->
  e_id target = h_targetId h ->
  let d :=
    match find (fun p => String.eqb (p_id p) projId) (projectiles r) with
    | Some p => if p_dmg p =? 0 then 1 else p_dmg p
    | None => 1
    end in
  (exists ti t0 t1,
      JsMap.get (h_targetId h) (byId (enemies s)) = Some ti
      /\ nth_error (enemies s) ti = Some t0
      /\ e_id t0 = h_targetId h
      /\ nth_error (damaged (projectiles r) projId h (enemyPositionsRef s)
                      ti (enemies s)) ti = Some t1
      /\ e_hp t1
         = e_hp t0 - d
           - (if negb (Qeq_bool (h_splash h) 0)
                 && splashed (enemyPositionsRef s) (h_hitPos h) (h_splash h) t0
              then d else 0)
      /\ enemies (handleProjectileHit r projId (Some h) s)
         = filter alive (damaged (projectiles r) projId h
                           (enemyPositionsRef s) ti (enemies s)))
  /\ (forall i dt s0 s1 tower p,
         nth_error (towers s0) i = Some tower ->
         TowerMesh_frame i dt s0 = Some s1 ->
         In p (projectiles s1) ->
         In p (projectiles s0)
         \/ p_dmg p = dmg (towerConfig tower) + t_dmgBonus tower).
Proof.
  intros Hin Hid d. split.
  - destruct (byId_In _ _ _ Hin Hid) as [ti Hti].
    destruct (byId_Some _ _ _ Hti) as (t0 & Hn & Ht0).
    destruct (nth_error_damaged (projectiles r) projId h (enemyPositionsRef s)
                ti (enemies s) ti t0 Hn) as (t1 & Hn1 & _ & _ & _ & Hhp).
    exists ti, t0, t1. repeat split; auto.
    + rewrite Hhp, Nat.eqb_refl. unfold projectileDmg, orUndefZ, orZ.
      subst d. destruct (find _ _); reflexivity.
    + now destruct (handleProjectileHit_hit r projId h s ti Hti) as [-> _].
  - intros i dt s0 s1 tower p Hn Hf Hp.
    destruct (TowerMesh_frame_projectiles i dt s0 s1 tower Hn Hf)
      as [E|(id & tg & E)]; rewrite E in Hp; auto.
    apply in_app_or in Hp. destruct Hp as [Hp|[<-|[]]]; auto.
Qed.

(** C2 (amended).  For a hit with a positive splash radius whose direct
    target is still in the live set, every enemy of the live set whose
    cached position is within the radius of the hit position loses the
    report's damage once through the splash loop; the direct target is
    among them, so inside the radius it loses that damage twice.  A
    report whose direct target is no longer in the live set applies no
    splash damage: it leaves the live set, with the hit points of every
    enemy, the money and the position map as they are. *)
Theorem splash_damages_all_in_radius
    (r s : State) (projId : string) (h : HitInfo) (target : Enemy)
    (j : nat) (e : Enemy) (posObj : PosInfo) :
  (0 < h_splash h)%Q ->
  In target (enemies s) ->
  e_id target = h_targetId h ->
  nth_error (enemies s) j = Some e ->
  JsMap.get (e_id e) (enemyPositionsRef s) = Some posObj ->
  (dist (pi_pos posObj) (h_hitPos h) <= h_splash h)%Q ->
  let d := projectileDmg (projectiles r) projId in
  (exists ti e',
      JsMap.get (h_targetId h) (byId (enemies s)) = Some ti
      /\ nth_error (damaged (projectiles r) projId h (enemyPositionsRef s)
                      ti (enemies s)) j = Some e'
      /\ e_id e' = e_id e
      /\ e_hp e' = e_hp e - (if Nat.eqb ti j then 2 * d else d)
      /\ enemies (handleProjectileHit r projId (Some h) s)
         = filter alive (damaged (projectiles r) projId h
                           (enemyPositionsRef s) ti (enemies s)))
  /\ (forall s0 : State,
        (forall e0, In e0 (enemies s0) -> e_id e0 <> h_targetId h) ->
        let s1 := handleProjectileHit r projId (Some h) s0 in
        enemies s1 = enemies s0
        /\ money s1 = money s0
        /\ enemyPositionsRef s1 = enemyPositionsRef s0).
Proof.
  intros Hsp Hin Hid Hn Hpos Hd d. split.
  2:{ intros s0 Hno s1. subst s1.
      rewrite (handleProjectileHit_absent r projId h s0 Hno). auto. }
  destruct (byId_In _ _ _ Hin Hid) as [ti Hti].
  destruct (nth_error_damaged (projectiles r) projId h (enemyPositionsRef s)
              ti (enemies s) j e Hn) as (e' & Hn' & Hid' & _ & _ & Hhp).
  exists ti, e'. repeat split; auto.
  - rewrite Hhp. fold d.
    assert (Qeq_bool (h_splash h) 0 = false) as ->.
    { destruct (Qeq_bool (h_splash h) 0) eqn:E; auto.
      apply Qeq_bool_iff in E. rewrite E in Hsp. now apply Qlt_irrefl in Hsp. }
    assert (splashed (enemyPositionsRef s) (h_hitPos h) (h_splash h) e = true)
      as ->.
    { unfold splashed. rewrite Hpos. now apply Qle_bool_iff. }
    simpl. destruct (Nat.eqb ti j); lia.
  - now destruct (handleProjectileHit_hit r projId h s ti Hti) as [-> _].
Qed.
End Hits.

(** C1 at [sharedId]: the target loses the 5 points the list stores under
    the id ["p1"]. *)
Lemma direct_damage_is_looked_up_witness :
  In (mkEnemy "e1" 9) (enemies sharedId)
  /\ e_id (mkEnemy "e1" 9) = h_targetId plainHit
  /\ exists ti t0 t1,
       nth_error (enemies sharedId) ti = Some t0
       /\ nth_error (damaged (H := js) (projectiles sharedId) "p1" plainHit
                       (enemyPositionsRef sharedId) ti (enemies sharedId)) ti
          = Some t1
       /\ e_hp t1 = e_hp t0 - 5.
Proof.
  split; [simpl; auto|]. split; [reflexivity|].
  destruct (@direct_damage_is_looked_up js sharedId sharedId "p1" plainHit
              (mkEnemy "e1" 9)) as [(ti & t0 & t1 & _ & B & _ & D & E & _) _];
    [simpl; auto | reflexivity |].
  exists ti, t0, t1. repeat split; auto.
  rewrite E. simpl. lia.
Defined.

(** C1 as stated fails.  At [zeroDamage] the reporting projectile carries
    the damage 0 and its hit takes 1 point; at [sharedId] the reporting
    projectile is the second one, which carries the damage 1, and its hit
    takes the 5 points of the first entry with its id. *)
Lemma direct_damage_counterexample :
  (nth_error (projectiles zeroDamage) 0 = Some (mkProjectile "p1" "e1" 0 0)
   /\ enemies zeroDamage = [mkEnemy "e1" 3]
   /\ option_map enemies (ProjectileMesh_frame (H := js) zeroDamage 0 0 zeroDamage)
      = Some [mkEnemy "e1" 2])
  /\ (nth_error (projectiles sharedId) 1 = Some (mkProjectile "p1" "e1" 1 0)
      /\ enemies sharedId = [mkEnemy "e1" 9]
      /\ option_map enemies (ProjectileMesh_frame (H := js) sharedId 1 0 sharedId)
         = Some [mkEnemy "e1" 4]).
Proof. repeat split; vm_compute; reflexivity. Qed.

(** C2 at [twoShells]: the first shell takes [2 * 2] points from its target
    ["b"]; once ["b"] is gone, a report on it leaves ["a"] alone. *)
Lemma splash_damages_all_in_radius_witness :
  (0 < h_splash shellHit)%Q
  /\ In (mkEnemy "b" 1) (enemies twoShells)
  /\ e_id (mkEnemy "b" 1) = h_targetId shellHit
  /\ nth_error (enemies twoShells) 0 = Some (mkEnemy "b" 1)
  /\ JsMap.get "b" (enemyPositionsRef twoShells) = Some (atOrigin 1)
  /\ (dist (H := js) (pi_pos (atOrigin 1)) (h_hitPos shellHit)
      <= h_splash shellHit)%Q
  /\ exists ti e',
       JsMap.get "b" (byId (enemies twoShells)) = Some ti
       /\ nth_error (damaged (H := js) (projectiles twoShells) "p1" shellHit
                       (enemyPositionsRef twoShells) ti (enemies twoShells)) 0
          = Some e'
       /\ e_hp e' = 1 - (if Nat.eqb ti 0 then 2 * 2 else 2)
       /\ enemies (@handleProjectileHit js twoShells "p1" (Some shellHit)
                     twoShells_first)
          = enemies twoShells_first.
Proof.
  assert ((0 < h_splash shellHit)%Q) as H1 by reflexivity.
  assert ((dist (H := js) (pi_pos (atOrigin 1)) (h_hitPos shellHit)
           <= h_splash shellHit)%Q) as H2 by (vm_compute; discriminate).
  repeat (split; [first [assumption | reflexivity | simpl; auto] |]).
  destruct (@splash_damages_all_in_radius js twoShells twoShells "p1" shellHit
              (mkEnemy "b" 1) 0%nat (mkEnemy "b" 1) (atOrigin 1))
    as [(ti & e' & A & B & _ & D & _) G];
    [assumption | simpl; auto | reflexivity | reflexivity | reflexivity
    | assumption |].
  exists ti, e'. split; [exact A|]. split; [exact B|]. split; [exact D|].
  apply (G twoShells_first).
  change (enemies twoShells_first) with [mkEnemy "a" 3].
  intros e0 [<-|[]]. discriminate.
Defined.

(** C2 as stated fails.  The first shell kills ["b"]; ["a"] survives with 3
    points and its cached position is inside the radius of the second
    shell's hit, whose damage is 2; the second hit leaves ["a"] at 3. *)
Lemma splash_counterexample :
  enemies twoShells_first = [mkEnemy "a" 3]
  /\ (0 < h_splash shellHit)%Q
  /\ splashed (H := js) (enemyPositionsRef twoShells_first)
       (h_hitPos shellHit) (h_splash shellHit) (mkEnemy "a" 3) = true
  /\ projectileDmg (projectiles twoShells) "p2" = 2
  /\ enemies twoShells_second = [mkEnemy "a" 3].
Proof. repeat split; vm_compute; reflexivity. Qed.

(** ** C4: rewards *)

Section Rewards.
Context `{JsBuiltins}.

Lemma handleProjectileHit_accounts (r : State) projId hitInfo s :
  let s' := handleProjectileHit r projId hitInfo s in
  money s'
  = money s + 10 * (Z.of_nat (List.length (enemies s))
                    - Z.of_nat (List.length (enemies s')))
  /\ lives s' = lives s
  /\ (forall id, In id (map e_id (enemies s')) -> In id (map e_id (enemies s))).
Proof.
  destruct hitInfo as [h|].
  - destruct (JsMap.get (h_targetId h) (byId (enemies s))) as [ti|] eqn:Hg.
    + destruct (handleProjectileHit_hit r projId h s ti Hg)
        as (He & _ & Hm & Hl & _).
      cbv zeta. rewrite He, Hm, Hl.
      pose proof (length_filter_split
                    (damaged (projectiles r) projId h (enemyPositionsRef s)
                       ti (enemies s))) as Hlen.
      rewrite length_damaged in Hlen.
      repeat split; [lia|].
      intros id Hid. rewrite <- (map_id_damaged (projectiles r) projId h
                                   (enemyPositionsRef s) ti (enemies s)).
      apply in_map_iff in Hid. destruct Hid as (e & <- & He').
      apply filter_In in He'. apply in_map. tauto.
    + cbv zeta. rewrite (handleProjectileHit_gone r projId h s Hg). simpl.
      repeat split; auto; lia.
  - cbv zeta. rewrite handleProjectileHit_null. simpl.
    repeat split; auto; lia.
Qed.

(** C4.  Over the hit reports of one frame, resolved in order, the money
    grows by exactly 10 for every enemy that leaves the live set, lives
    are untouched and no enemy comes back; a report removes exactly the
    enemies its damage brings to 0 or below and pays 10 for each of them;
    a report whose target is no longer in the live set removes nobody
    and pays nothing. *)
Theorem each_kill_pays_ten_once
    (r : State) (reports : list (string * option HitInfo)) (s : State) :
  let s' := resolveReports r reports s in
  money s'
  = money s + 10 * (Z.of_nat (List.length (enemies s))
                    - Z.of_nat (List.length (enemies s')))
  /\ lives s' = lives s
  /\ (forall id, In id (map e_id (enemies s')) -> In id (map e_id (enemies s)))
  /\ (forall projId h ti,
         JsMap.get (h_targetId h) (byId (enemies s')) = Some ti ->
         let updated :=
           damaged (projectiles r) projId h (enemyPositionsRef s') ti
             (enemies s') in
         let s'' := handleProjectileHit r projId (Some h) s' in
         enemies s'' = filter alive updated
         /\ money s''
            = money s' + 10 * Z.of_nat (List.length (filter dead updated)))
  /\ (forall projId h,
         ~ In (h_targetId h) (map e_id (enemies s')) ->
         let s'' := handleProjectileHit r projId (Some h) s' in
         enemies s'' = enemies s' /\ money s'' = money s').
Proof.
  cbv zeta. split; [|split; [|split; [|split]]].
  - revert s. induction reports as [|[projId hi] reports IH]; intros s.
    + simpl. lia.
    + unfold resolveReports in *. simpl.
      rewrite IH.
      destruct (handleProjectileHit_accounts r projId hi s) as (Hm & _ & _).
      rewrite Hm. lia.
  - revert s. induction reports as [|[projId hi] reports IH]; intros s; auto.
    unfold resolveReports in *. simpl. rewrite IH.
    now destruct (handleProjectileHit_accounts r projId hi s) as (_ & Hl & _).
  - revert s. induction reports as [|[projId hi] reports IH]; intros s; auto.
    unfold resolveReports in *. simpl. intros id Hid.
    apply IH in Hid.
    now apply (handleProjectileHit_accounts r projId hi s).
  - intros projId h ti Hg.
    destruct (handleProjectileHit_hit r projId h _ ti Hg) as (He & _ & Hm & _).
    auto.
  - intros projId h Hno.
    assert (JsMap.get (h_targetId h) (byId (enemies (resolveReports r reports s)))
            = None) as Hg.
    { apply byId_None. destruct (existsb _ _) eqn:E; auto.
      apply existsb_exists in E. destruct E as (e & He & Hid).
      unfold hasId in Hid. apply String.eqb_eq in Hid.
      exfalso. apply Hno. rewrite <- Hid. now apply in_map. }
    rewrite (handleProjectileHit_gone r projId h _ Hg). auto.
Qed.
End Rewards.

(** ** [EnemyMesh]: one frame of an enemy *)


Lemma baseSpeed_nonneg (type : string) : (0 <= baseSpeed type)%Q.
Proof.
  unfold baseSpeed.
  destruct (String.eqb type "fast"); [discriminate|].
  destruct (String.eqb type "cannon"); discriminate.
Qed.

Lemma Qfloor_nonneg (x : Q) : (0 <= x)%Q -> 0 <= Qfloor x.
Proof. intros Hx. change 0 with (Qfloor 0). now apply Qfloor_resp_le. Qed.

Lemma PATH_segment (idx : Z) :
  0 <= idx < segments ->
  exists a b, PATH_at idx = Some a /\ PATH_at (idx + 1) = Some b.
Proof.
  unfold segments. simpl. intros Hidx.
  assert (idx = 0 \/ idx = 1 \/ idx = 2 \/ idx = 3) as [ -> | [ -> | [ -> | -> ] ] ] by lia;
    eexists; eexists; split; reflexivity.
Qed.


Lemma filter_other_ids (id : string) (es : list Enemy) (e : Enemy) :
  In e (filter (fun e => negb (String.eqb (e_id e) id)) es) -> e_id e <> id.
Proof.
  intros He. apply filter_In in He. destruct He as [_ He].
  destruct (String.eqb_spec (e_id e) id); auto. discriminate.
Qed.

Section EnemyFrames.
Context `{JsBuiltins}.

(** The progress of an enemy does not go down, and stays on the path side
    of the first waypoint. *)
Lemma advanced_grows (e : Enemy) (dt : Q) :
  (0 <= dt)%Q -> (e_progress e <= advanced e dt)%Q.
Proof.
  intros Hdt. unfold advanced. apply num_add_grows, num_mul_nonneg; auto.
  apply num_lit_nonneg, baseSpeed_nonneg.
Qed.

Lemma advanced_nonneg (e : Enemy) (dt : Q) :
  (0 <= e_progress e)%Q -> (0 <= dt)%Q -> (0 <= advanced e dt)%Q.
Proof.
  intros Hp Hdt. eapply Qle_trans; [exact Hp|now apply advanced_grows].
Qed.

(** The frame of [enemies[i]], by cases on the segment index reached. *)
Lemma EnemyMesh_frame_end (i : nat) (dt : Q) (s : State) (e : Enemy) :
  nth_error (enemies s) i = Some e ->
  let progress := advanced e dt in
  segments <= Math_floor progress ->
  EnemyMesh_frame i dt s
  = Some (handleEnemyReachEnd (e_id e)
            (setPositions (JsMap.delete (e_id e))
               (setEnemies (updateAt i (withProgress progress)) s))).
Proof.
  intros Hn progress Hidx. unfold EnemyMesh_frame. rewrite Hn. fold progress.
  fold segments. destruct (Z.leb_spec segments (Math_floor progress)); auto. lia.
Qed.

Lemma EnemyMesh_frame_move (i : nat) (dt : Q) (s : State) (e : Enemy) :
  nth_error (enemies s) i = Some e ->
  let progress := advanced e dt in
  let idx := Math_floor progress in
  0 <= idx < segments ->
  exists a b,
    PATH_at idx = Some a /\ PATH_at (idx + 1) = Some b
    /\ EnemyMesh_frame i dt s
       = Some (setPositions
                 (JsMap.set (e_id e)
                    {| pi_pos := lerpVec a b (progress - inject_Z idx);
                       pi_hp := e_hp e |})
                 (setEnemies (updateAt i (withProgress progress)) s)).
Proof.
  intros Hn progress idx Hidx.
  destruct (PATH_segment idx Hidx) as (a & b & Ha & Hb).
  exists a, b. repeat split; auto.
  unfold EnemyMesh_frame. rewrite Hn. fold progress. fold idx. fold segments.
  destruct (Z.leb_spec segments idx); [lia|]. now rewrite Ha, Hb.
Qed.

End EnemyFrames.


(** ** C3: the position map along the runs of the game *)

Section Field.
Context `{JsBuiltins}.

Lemma sameField_onPlaceTower r x z s : sameField s (onPlaceTower r x z s).
Proof.
  unfold onPlaceTower. destruct (TOWER_TYPES _); [|split; reflexivity].
  destruct (_ <? _); [split; reflexivity|].
  unfold randomId, Math_random. destruct (randoms s); split; reflexivity.
Qed.

Lemma sameField_upgradeMap r towerId prev s ts s' :
  upgradeMap r towerId prev s = Some (ts, s') -> sameField s s'.
Proof.
  revert s ts s'. induction prev as [|t prev IH]; intros s ts s'; simpl.
  - intros [= _ <-]. split; reflexivity.
  - destruct (negb _).
    + destruct (upgradeMap r towerId prev s) as [[ts0 s0]|] eqn:E; [|discriminate].
      intros [= _ <-]. eauto.
    + destruct (TOWER_TYPES _) as [cfg|]; [|discriminate].
      destruct (_ <? _).
      * destruct (upgradeMap r towerId prev _) as [[ts0 s0]|] eqn:E; [|discriminate].
        intros [= _ <-]. apply IH in E. exact E.
      * destruct (upgradeMap r towerId prev _) as [[ts0 s0]|] eqn:E; [|discriminate].
        intros [= _ <-]. apply IH in E. exact E.
Qed.

Lemma sameField_upgradeTower r towerId s s' :
  upgradeTower r towerId s = Some s' -> sameField s s'.
Proof.
  unfold upgradeTower.
  destruct (upgradeMap r towerId (towers s) s) as [[ts s0]|] eqn:E; [|discriminate].
  intros [= <-]. apply sameField_upgradeMap in E. exact E.
Qed.

Lemma sameField_sellTower r towerId s s' :
  sellTower r towerId s = Some s' -> sameField s s'.
Proof.
  unfold sellTower. destruct (find _ _) as [t|].
  - destruct (TOWER_TYPES _); [|discriminate]. intros [= <-]. split; reflexivity.
  - intros [= <-]. split; reflexivity.
Qed.

Lemma sameField_loadGame s : sameField s (loadGame s).
Proof. unfold loadGame. destruct (localStorage s); split; reflexivity. Qed.

Lemma sameField_TowerMesh_frame i dt s s' :
  TowerMesh_frame i dt s = Some s' -> sameField s s'.
Proof.
  unfold TowerMesh_frame. destruct (nth_error _ _) as [tower|]; [|discriminate].
  destruct (inheritedKey _); [intros [= <-]; split; reflexivity|].
  destruct (Qlt_bool _ _); [intros [= <-]; split; reflexivity|].
  destruct (findClosest _ _ _); [|intros [= <-]; split; reflexivity].
  intros [= <-].
  match goal with
  | |- sameField _ (spawnProjectile ?a ?b ?c ?d ?e ?s0) =>
      destruct (spawnProjectile_rest a b c d e s0) as (He & Hp & _)
  end.
  split; [rewrite He|rewrite Hp]; reflexivity.
Qed.

Lemma spawnEnemy_spec type hp s :
  let s' := spawnEnemy type hp s in
  enemies s'
  = enemies s ++ [ {| e_id := fst (randomId s); e_type := type; e_hp := hp;
                      e_progress := 0 |} ]
  /\ enemyPositionsRef s' = enemyPositionsRef s.
Proof.
  unfold spawnEnemy, randomId, Math_random.
  destruct (randoms s); split; reflexivity.
Qed.

Lemma spawnTimeout_spec currentWave s :
  let s' := spawnTimeout currentWave s in
  (exists e, enemies s' = enemies s ++ [e] /\ e_progress e = 0%Q)
  /\ enemyPositionsRef s' = enemyPositionsRef s.
Proof.
  unfold spawnTimeout.
  destruct (Math_random s) as [r1 s1] eqn:E1.
  assert (sameField s s1) as [He1 Hp1].
  { unfold Math_random in E1. destruct (randoms s); inversion E1; split; reflexivity. }
  destruct (Qlt_bool r1 _).
  - cbv beta iota zeta.
    match goal with
    | |- context [spawnEnemy ?t ?hp ?s0] =>
        destruct (spawnEnemy_spec t hp s0) as [He Hp]
    end.
    rewrite He, Hp, He1, Hp1. eauto.
  - destruct (Math_random s1) as [r2 s2] eqn:E2.
    assert (sameField s1 s2) as [He2 Hp2].
    { unfold Math_random in E2. destruct (randoms s1); inversion E2; split; reflexivity. }
    destruct (Qlt_bool r2 _); cbv beta iota zeta;
      match goal with
      | |- context [spawnEnemy ?t ?hp ?s0] =>
          destruct (spawnEnemy_spec t hp s0) as [He Hp]
      end;
      rewrite He, Hp, He2, Hp2, He1, Hp1; eauto.
Qed.
End Field.

Lemma entriesLive_sameField (s s' : State) :
  sameField s s' -> entriesLive s -> entriesLive s'.
Proof. intros [He Hp] [H1 H2]. split; rewrite ?He, ?Hp; auto. Qed.

Lemma has_delete (id k : string) (m : JsMap.t PosInfo) :
  JsMap.has id (JsMap.delete k m) = true -> k <> id /\ JsMap.has id m = true.
Proof.
  rewrite !JsMapFacts.has_true. intros [v Hv].
  apply JsMapFacts.get_delete_Some in Hv. destruct Hv; eauto.
Qed.

Lemma has_delete_other (id k : string) (m : JsMap.t PosInfo) :
  k <> id -> JsMap.has id (JsMap.delete k m) = JsMap.has id m.
Proof. intros Hne. unfold JsMap.has. now rewrite JsMapFacts.get_delete_other. Qed.

Lemma has_set_keeps (id k : string) (v : PosInfo) (m : JsMap.t PosInfo) :
  JsMap.has id m = true -> JsMap.has id (JsMap.set k v m) = true.
Proof.
  intros Hh. unfold JsMap.has in *.
  destruct (String.eqb_spec k id) as [->|Hne].
  - now rewrite JsMapFacts.get_set_same.
  - now rewrite JsMapFacts.get_set_other.
Qed.

Lemma NoDup_map_eq {A B} (f : A -> B) (l : list A) (x y : A) :
  NoDup (map f l) -> In x l -> In y l -> f x = f y -> x = y.
Proof.
  induction l as [|a l IH]; simpl; [contradiction|].
  intros Hnd Hx Hy E. inversion Hnd as [|? ? Hnot Hnd']; subst.
  destruct Hx as [->|Hx], Hy as [->|Hy]; auto.
  - exfalso. apply Hnot. rewrite E. now apply in_map.
  - exfalso. apply Hnot. rewrite <- E. now apply in_map.
Qed.

Lemma has_set (id k : string) (v : PosInfo) (m : JsMap.t PosInfo) :
  JsMap.has id (JsMap.set k v m) = true -> k = id \/ JsMap.has id m = true.
Proof.
  destruct (String.eqb_spec k id) as [->|Hne]; auto.
  unfold JsMap.has. rewrite JsMapFacts.get_set_other by auto. auto.
Qed.

Lemma In_updateAt_withProgress (i : nat) (x : Q) (es : list Enemy) (e : Enemy) :
  In e (updateAt i (withProgress x) es) ->
  In e es \/ (exists e0, nth_error es i = Some e0 /\ e = withProgress x e0).
Proof.
  revert i. induction es as [|e0 es IH]; intros [|i]; simpl; auto.
  - intros [<-|He]; eauto.
  - intros [<-|He]; auto. destruct (IH _ He) as [?|(e1 & ? & ?)]; eauto.
Qed.

Lemma ids_updateAt_withProgress (i : nat) (x : Q) (es : list Enemy) (id : string) :
  (exists e, In e es /\ e_id e = id) ->
  exists e, In e (updateAt i (withProgress x) es) /\ e_id e = id.
Proof.
  intros (e & He & Hid).
  assert (In id (map e_id (updateAt i (withProgress x) es))) as Hin.
  { rewrite map_updateAt by reflexivity. rewrite <- Hid. now apply in_map. }
  apply in_map_iff in Hin. destruct Hin as (e' & ? & ?). eauto.
Qed.

Section Invariant.
Context `{JsBuiltins}.

Lemma entriesLive_init storage rs : entriesLive (initialState storage rs).
Proof. split; simpl; [discriminate|contradiction]. Qed.

Lemma entriesLive_resetGame s : entriesLive (resetGame s).
Proof. split; simpl; [discriminate|contradiction]. Qed.

Lemma entriesLive_spawnTimeout currentWave s :
  entriesLive s -> entriesLive (spawnTimeout currentWave s).
Proof.
  intros [H1 H2].
  destruct (spawnTimeout_spec currentWave s) as [(e & He & He0) Hp].
  split; rewrite ?He, ?Hp.
  - intros id Hid. destruct (H1 id Hid) as (e0 & ? & ?).
    exists e0. split; auto. apply in_or_app. auto.
  - intros e' He'. apply in_app_or in He'. destruct He' as [He'|[<-|[]]]; auto.
    split; rewrite He0; [discriminate|reflexivity].
Qed.

Lemma entriesLive_EnemyMesh_frame i dt s s' :
  (0 <= dt)%Q -> entriesLive s -> EnemyMesh_frame i dt s = Some s' ->
  entriesLive s'.
Proof.
  intros Hdt [H1 H2] Hf.
  destruct (nth_error (enemies s) i) as [e|] eqn:Hn;
    [|unfold EnemyMesh_frame in Hf; rewrite Hn in Hf; discriminate].
  destruct (H2 e (nth_error_In _ _ Hn)) as [Hp0 _].
  set (p := advanced e dt) in *.
  assert (0 <= p)%Q as Hp by (apply advanced_nonneg; auto).
  assert (0 <= Math_floor p) as Hidx by (now apply Qfloor_nonneg).
  destruct (Z.le_gt_cases segments (Math_floor p)) as [Hend|Hmove].
  - rewrite (EnemyMesh_frame_end i dt s e Hn Hend) in Hf. injection Hf as <-.
    split; simpl.
    + intros id Hid.
      apply has_delete in Hid. destruct Hid as [Hne Hid].
      apply has_delete in Hid. destruct Hid as [_ Hid].
      destruct (ids_updateAt_withProgress i p _ id (H1 id Hid)) as (e1 & He1 & Hid1).
      exists e1. split; auto. apply filter_In. split; auto.
      destruct (String.eqb_spec (e_id e1) (e_id e)); auto. congruence.
    + intros e1 He1. pose proof (filter_other_ids _ _ _ He1) as Hne.
      apply filter_In in He1. destruct He1 as [He1 _].
      apply In_updateAt_withProgress in He1.
      destruct He1 as [He1|(e0 & Hn0 & ->)]; auto.
      rewrite Hn in Hn0. injection Hn0 as <-. now simpl in Hne.
  - destruct (EnemyMesh_frame_move i dt s e Hn (conj Hidx Hmove))
      as (a & b & _ & _ & Hf').
    rewrite Hf' in Hf. injection Hf as <-.
    split; simpl.
    + intros id Hid. apply has_set in Hid. destruct Hid as [<-|Hid].
      * apply ids_updateAt_withProgress. exists e. split; auto.
        eapply nth_error_In; eauto.
      * apply ids_updateAt_withProgress. auto.
    + intros e1 He1. apply In_updateAt_withProgress in He1.
      destruct He1 as [He1|(e0 & Hn0 & ->)]; auto.
      rewrite Hn in Hn0. injection Hn0 as <-. split; simpl; auto.
Qed.

Lemma In_damaged projs projId h positions ti prev e :
  In e (damaged projs projId h positions ti prev) ->
  exists e0, In e0 prev /\ e_id e = e_id e0 /\ e_progress e = e_progress e0.
Proof.
  intros He. apply In_nth_error in He. destruct He as [j Hj].
  assert (j < List.length prev)%nat as Hlt.
  { rewrite <- (length_damaged projs projId h positions ti prev).
    apply nth_error_Some. congruence. }
  destruct (nth_error prev j) as [e0|] eqn:Hn;
    [|apply nth_error_None in Hn; lia].
  destruct (nth_error_damaged projs projId h positions ti prev j e0 Hn)
    as (e' & Hj' & Hid & _ & Hpr & _).
  rewrite Hj in Hj'. injection Hj' as <-.
  exists e0. split; [eapply nth_error_In; eauto|auto].
Qed.

Lemma entriesLive_handleProjectileHit r projId hitInfo s :
  entriesLive s -> entriesLive (handleProjectileHit r projId hitInfo s).
Proof.
  intros [H1 H2]. destruct hitInfo as [h|]; [|split; simpl; auto].
  destruct (JsMap.get (h_targetId h) (byId (enemies s))) as [ti|] eqn:Hg;
    [|rewrite (handleProjectileHit_gone r projId h s Hg); split; simpl; auto].
  destruct (handleProjectileHit_hit r projId h s ti Hg) as (He & Hp & _).
  set (updated := damaged (projectiles r) projId h (enemyPositionsRef s) ti
                    (enemies s)) in *.
  split; rewrite ?He, ?Hp.
  - intros id Hid. apply JsMapFacts.has_true in Hid. destruct Hid as [v Hv].
    rewrite get_evict in Hv.
    destruct (existsb (hasId id) (filter dead updated)) eqn:E; [discriminate|].
    destruct (H1 id) as (e0 & He0 & Hid0);
      [apply JsMapFacts.has_true; eauto|].
    assert (In id (map e_id updated)) as Hin.
    { unfold updated. rewrite map_id_damaged, <- Hid0. now apply in_map. }
    apply in_map_iff in Hin. destruct Hin as (e1 & Hid1 & He1).
    exists e1. split; auto. apply filter_In. split; auto.
    unfold alive. destruct (e_hp e1 <=? 0) eqn:Ehp; auto.
    assert (existsb (hasId id) (filter dead updated) = true) as Ht; [|congruence].
    apply existsb_exists. exists e1. split.
    + apply filter_In. split; auto.
    + unfold hasId. now apply String.eqb_eq.
  - intros e He'. apply filter_In in He'. destruct He' as [He' _].
    apply In_damaged in He'. destruct He' as (e0 & He0 & _ & Hpr).
    destruct (H2 e0 He0) as [Ha Hb]. split; rewrite Hpr; auto.
Qed.

Lemma entriesLive_ProjectileMesh_frame r i dt s s' :
  entriesLive s -> ProjectileMesh_frame r i dt s = Some s' -> entriesLive s'.
Proof.
  intros Hinv. unfold ProjectileMesh_frame.
  destruct (nth_error _ _) as [p|]; [|discriminate].
  destruct (JsMap.get _ _) as [target|].
  - destruct (Qlt_bool _ _); intros Hf; apply Some_eq in Hf; rewrite <- Hf.
    + apply entriesLive_handleProjectileHit.
      eapply entriesLive_sameField; [|exact Hinv]. split; reflexivity.
    + eapply entriesLive_sameField; [|exact Hinv]. split; reflexivity.
  - intros Hf; apply Some_eq in Hf; rewrite <- Hf.
    now apply entriesLive_handleProjectileHit.
Qed.

Lemma entriesLive_fire ev s s' :
  entriesLive s -> fire ev s = Some s' -> entriesLive s'.
Proof.
  intros Hinv. destruct ev; simpl.
  - destruct (TOWER_TYPES k); [|discriminate].
    intros [= <-]. eapply entriesLive_sameField; [|exact Hinv]. split; reflexivity.
  - intros [= <-]. eapply entriesLive_sameField; [|exact Hinv].
    apply sameField_onPlaceTower.
  - intros Hf. eapply entriesLive_sameField; [|exact Hinv].
    eapply sameField_upgradeTower; eauto.
  - intros Hf. eapply entriesLive_sameField; [|exact Hinv].
    eapply sameField_sellTower; eauto.
  - intros [= <-]. apply entriesLive_resetGame.
  - intros [= <-]. eapply entriesLive_sameField; [|exact Hinv]. split; reflexivity.
  - intros [= <-]. eapply entriesLive_sameField; [|exact Hinv].
    apply sameField_loadGame.
  - intros [= <-]. eapply entriesLive_sameField; [|exact Hinv]. split; reflexivity.
  - destruct (nth_error _ _) as [tm|]; [|discriminate]. intros [= <-].
    apply entriesLive_spawnTimeout.
    eapply entriesLive_sameField; [|exact Hinv]. split; reflexivity.
  - destruct (Qle_bool 0 dt) eqn:E; [|discriminate]. apply Qle_bool_iff in E.
    now apply entriesLive_EnemyMesh_frame.
  - destruct (Qle_bool 0 dt); [|discriminate]. intros Hf.
    eapply entriesLive_sameField; [|exact Hinv].
    eapply sameField_TowerMesh_frame; eauto.
  - destruct (Qle_bool 0 dt); [|discriminate].
    now apply entriesLive_ProjectileMesh_frame.
  - intros [= <-]. eapply entriesLive_sameField; [|exact Hinv]. split; reflexivity.
Qed.

Lemma reachable_entriesLive s : reachable s -> entriesLive s.
Proof.
  induction 1 as [storage rs|ev s s' _ IH Hf].
  - apply entriesLive_init.
  - eapply entriesLive_fire; eauto.
Qed.

(** The entry of a live enemy stays until the enemy leaves the live set. *)
Lemma published_sameField (s s' : State) :
  sameField s s' -> published s -> published s'.
Proof. intros [He Hp] Hs. unfold published. rewrite He, Hp. exact Hs. Qed.

Lemma published_spawnTimeout currentWave s :
  published s -> published (spawnTimeout currentWave s).
Proof.
  intros Hs. destruct (spawnTimeout_spec currentWave s) as [(e & He & He0) Hp].
  unfold published. rewrite He, Hp. intros e' He'.
  apply in_app_or in He'. destruct He' as [He'|[<-|[]]]; auto.
Qed.

Lemma published_EnemyMesh_frame i dt s s' :
  published s -> EnemyMesh_frame i dt s = Some s' -> published s'.
Proof.
  intros Hs. unfold EnemyMesh_frame.
  destruct (nth_error (enemies s) i) as [e|] eqn:Hn; [|discriminate].
  destruct (_ <=? _).
  - intros Hf. apply Some_eq in Hf. subst s'. intros e1 He1.
    unfold handleEnemyReachEnd in *. simpl in *.
    pose proof (filter_other_ids _ _ _ He1) as Hne.
    apply filter_In in He1. destruct He1 as [He1 _].
    apply In_updateAt_withProgress in He1.
    destruct He1 as [He1|(e0 & Hn0 & ->)].
    + destruct (Hs e1 He1) as [Hh|Hz]; auto. left.
      rewrite !has_delete_other by auto. exact Hh.
    + rewrite Hn in Hn0. apply Some_eq in Hn0. subst e0. now simpl in Hne.
  - destruct (PATH_at _); [|discriminate]. destruct (PATH_at _); [|discriminate].
    intros Hf. apply Some_eq in Hf. subst s'. intros e1 He1. simpl in *.
    apply In_updateAt_withProgress in He1.
    destruct He1 as [He1|(e0 & Hn0 & ->)].
    + destruct (Hs e1 He1) as [Hh|Hz]; auto. left. now apply has_set_keeps.
    + rewrite Hn in Hn0. apply Some_eq in Hn0. subst e0.
      left. simpl. unfold JsMap.has. now rewrite JsMapFacts.get_set_same.
Qed.

Lemma published_handleProjectileHit r projId hitInfo s :
  distinctIds s -> published s ->
  published (handleProjectileHit r projId hitInfo s).
Proof.
  intros Hd Hs. destruct hitInfo as [h|]; [|exact Hs].
  destruct (JsMap.get (h_targetId h) (byId (enemies s))) as [ti|] eqn:Hg;
    [|rewrite (handleProjectileHit_gone r projId h s Hg); exact Hs].
  destruct (handleProjectileHit_hit r projId h s ti Hg) as (He & Hp & _).
  set (updated := damaged (projectiles r) projId h (enemyPositionsRef s) ti
                    (enemies s)) in *.
  unfold published. rewrite He, Hp. intros e He'.
  apply filter_In in He'. destruct He' as [He' Halive].
  destruct (In_damaged _ _ _ _ _ _ _ He') as (e0 & He0 & Hid & Hpr).
  destruct (Hs e0 He0) as [Hh|Hz]; [left|right; congruence].
  apply JsMapFacts.has_true in Hh. destruct Hh as [v Hv].
  unfold JsMap.has. rewrite get_evict.
  destruct (existsb (hasId (e_id e)) (filter dead updated)) eqn:E;
    [|now rewrite Hid, Hv].
  exfalso. apply existsb_exists in E. destruct E as (d & Hdin & Hdid).
  apply filter_In in Hdin. destruct Hdin as [Hdin Hdead].
  unfold hasId in Hdid. apply String.eqb_eq in Hdid.
  assert (d = e) as ->.
  { apply (NoDup_map_eq e_id updated); auto.
    unfold updated. rewrite map_id_damaged. exact Hd. }
  unfold alive in Halive. unfold dead in Hdead. now rewrite Hdead in Halive.
Qed.

Lemma published_ProjectileMesh_frame r i dt s s' :
  distinctIds s -> published s -> ProjectileMesh_frame r i dt s = Some s' ->
  published s'.
Proof.
  intros Hd Hs. unfold ProjectileMesh_frame.
  destruct (nth_error _ _) as [p|]; [|discriminate].
  destruct (JsMap.get _ _) as [target|].
  - destruct (Qlt_bool _ _); intros Hf; apply Some_eq in Hf; rewrite <- Hf.
    + apply published_handleProjectileHit; [exact Hd|].
      eapply published_sameField; [|exact Hs]. split; reflexivity.
    + eapply published_sameField; [|exact Hs]. split; reflexivity.
  - intros Hf; apply Some_eq in Hf; rewrite <- Hf.
    now apply published_handleProjectileHit.
Qed.

Lemma published_fire ev s s' :
  distinctIds s -> published s -> fire ev s = Some s' -> published s'.
Proof.
  intros Hd Hs. destruct ev; simpl.
  - destruct (TOWER_TYPES k); [|discriminate].
    intros [= <-]. eapply published_sameField; [|exact Hs]. split; reflexivity.
  - intros [= <-]. eapply published_sameField; [|exact Hs].
    apply sameField_onPlaceTower.
  - intros Hf. eapply published_sameField; [|exact Hs].
    eapply sameField_upgradeTower; eauto.
  - intros Hf. eapply published_sameField; [|exact Hs].
    eapply sameField_sellTower; eauto.
  - intros [= <-]. intros e [].
  - intros [= <-]. eapply published_sameField; [|exact Hs]. split; reflexivity.
  - intros [= <-]. eapply published_sameField; [|exact Hs].
    apply sameField_loadGame.
  - intros [= <-]. eapply published_sameField; [|exact Hs]. split; reflexivity.
  - destruct (nth_error _ _) as [tm|]; [|discriminate]. intros [= <-].
    apply published_spawnTimeout.
    eapply published_sameField; [|exact Hs]. split; reflexivity.
  - destruct (Qle_bool 0 dt); [|discriminate].
    now apply published_EnemyMesh_frame.
  - destruct (Qle_bool 0 dt); [|discriminate]. intros Hf.
    eapply published_sameField; [|exact Hs].
    eapply sameField_TowerMesh_frame; eauto.
  - destruct (Qle_bool 0 dt); [|discriminate].
    now apply published_ProjectileMesh_frame.
  - intros [= <-]. eapply published_sameField; [|exact Hs]. split; reflexivity.
Qed.

Lemma reachableDistinct_distinctIds s : reachableDistinct s -> distinctIds s.
Proof. intros [storage rs|ev s0 s' _ _ Hd]; [constructor|exact Hd]. Qed.

Lemma reachableDistinct_published s : reachableDistinct s -> published s.
Proof.
  induction 1 as [storage rs|ev s s' Hr IH Hf Hd].
  - intros e [].
  - apply (published_fire ev s s'); auto.
    now apply reachableDistinct_distinctIds.
Qed.

Lemma reachableDistinct_reachable s : reachableDistinct s -> reachable s.
Proof.
  induction 1 as [storage rs|ev s s' Hr IH Hf Hd].
  - apply reachable_init.
  - eapply reachable_step; eauto.
Qed.
End Invariant.

Lemma distinctb_NoDup (ids : list string) : distinctb ids = true -> NoDup ids.
Proof.
  induction ids as [|id ids IH]; simpl; [constructor|].
  intros Hb. apply andb_prop in Hb. destruct Hb as [Hn Hb].
  constructor; [|now apply IH].
  intros Hin. apply negb_true_iff in Hn.
  assert (existsb (String.eqb id) ids = true) as Ht; [|congruence].
  apply existsb_exists. exists id. split; [exact Hin|apply String.eqb_refl].
Qed.

Lemma reachableDistinct_run `{JsBuiltins} (evs : list Event) (s s' : State) :
  reachableDistinct s -> runDistinct evs s = Some s' -> reachableDistinct s'.
Proof.
  revert s. induction evs as [|ev evs IH]; intros s Hs; simpl.
  - intros Hr. apply Some_eq in Hr. now rewrite <- Hr.
  - destruct (fire ev s) as [s1|] eqn:Hf; [|discriminate].
    destruct (distinctb (map e_id (enemies s1))) eqn:Hd; [|discriminate].
    apply IH. eapply distinct_step; eauto. now apply distinctb_NoDup.
Qed.

Lemma reachable_run `{JsBuiltins} (evs : list Event) (s s' : State) :
  reachable s -> run evs s = Some s' -> reachable s'.
Proof.
  revert s. induction evs as [|ev evs IH]; intros s Hs; simpl.
  - intros Hr. apply Some_eq in Hr. now rewrite <- Hr.
  - destruct (fire ev s) as [s1|] eqn:Hf; [|discriminate].
    apply IH. eapply reachable_step; eauto.
Qed.

Section Entries.
Context `{JsBuiltins}.

(** C3 (amended).  In every reachable state an entry of the position map
    belongs to an enemy of the live set that has not reached the end of
    the path, and every enemy of the live set is still on the path.  As
    long as the ids of the live enemies are distinct, every enemy of the
    live set has an entry, except one whose progress is still the 0 it was
    spawned with: a timer that spawns an enemy writes no entry, and the
    enemy's own frame writes it, after which the enemy has an entry
    exactly if it is still in the live set.  After a hit is resolved no
    entry is left for an id that is no longer in the live set. *)
Theorem entries_belong_to_live_enemies (s : State) :
  reachable s ->
  (forall id,
      JsMap.has id (enemyPositionsRef s) = true ->
      exists e, In e (enemies s) /\ e_id e = id
                /\ Math_floor (e_progress e) < segments)
  /\ (forall e, In e (enemies s) ->
                (0 <= e_progress e)%Q /\ Math_floor (e_progress e) < segments)
  /\ (forall i dt e,
         (0 <= dt)%Q -> nth_error (enemies s) i = Some e ->
         exists s',
           EnemyMesh_frame i dt s = Some s'
           /\ (JsMap.has (e_id e) (enemyPositionsRef s') = true
               <-> exists e', In e' (enemies s') /\ e_id e' = e_id e))
  /\ (forall k tm,
         nth_error (timers s) k = Some tm ->
         exists s' e,
           fire (EvTimeout k) s = Some s'
           /\ enemies s' = enemies s ++ [e]
           /\ e_progress e = 0%Q
           /\ enemyPositionsRef s' = enemyPositionsRef s)
  /\ (forall r projId hitInfo id,
         let s' := handleProjectileHit r projId hitInfo s in
         (forall e, In e (enemies s') -> e_id e <> id) ->
         JsMap.has id (enemyPositionsRef s') = false)
  /\ (reachableDistinct s ->
      forall e, In e (enemies s) ->
        JsMap.has (e_id e) (enemyPositionsRef s) = true
        \/ e_progress e = 0%Q).
Proof.
  intros Hr. pose proof (reachable_entriesLive s Hr) as [H1 H2].
  split; [|split; [|split; [|split; [|split]]]];
    [| | | | |exact (reachableDistinct_published s)].
  - intros id Hid. destruct (H1 id Hid) as (e & He & Heid).
    exists e. repeat split; auto. now apply H2.
  - exact H2.
  - intros i dt e Hdt Hn.
    destruct (H2 e (nth_error_In _ _ Hn)) as [Hp0 _].
    set (p := advanced e dt).
    assert (0 <= Math_floor p) as Hidx
        by (apply Qfloor_nonneg, advanced_nonneg; auto).
    destruct (Z.le_gt_cases segments (Math_floor p)) as [Hend|Hmove].
    + rewrite (EnemyMesh_frame_end i dt s e Hn Hend).
      eexists. split; [reflexivity|]. simpl. split.
      * unfold JsMap.has. now rewrite JsMapFacts.get_delete_same.
      * intros (e' & He' & Hid). apply filter_other_ids in He'. contradiction.
    + destruct (EnemyMesh_frame_move i dt s e Hn (conj Hidx Hmove))
        as (a & b & _ & _ & ->).
      eexists. split; [reflexivity|]. simpl. split.
      * intros _. apply ids_updateAt_withProgress. exists e. split; auto.
        eapply nth_error_In; eauto.
      * intros _. unfold JsMap.has. now rewrite JsMapFacts.get_set_same.
  - intros k tm Hk. simpl. rewrite Hk.
    destruct (spawnTimeout_spec (tm_wave tm) (setTimers (removeAt k) s))
      as [(e & He & He0) Hp].
    eexists. exists e. split; [reflexivity|]. auto.
  - intros r projId hitInfo id s' Hno.
    destruct (entriesLive_handleProjectileHit r projId hitInfo s (conj H1 H2))
      as [H1' _].
    destruct (JsMap.has id (enemyPositionsRef s')) eqn:E; auto.
    destruct (H1' id E) as (e & He & Hid). now apply Hno in He.
Qed.
End Entries.

(** C3 at [firstFrame]: the state is reachable, its position map has an
    entry for ["zn1fu8n"], and an enemy with that id is in the live set, on
    the path; the ids were distinct on the way, and every enemy of the
    live set has an entry or is still at progress 0. *)
Lemma entries_belong_to_live_enemies_witness :
  reachable (H := js) firstFrame
  /\ JsMap.has "zn1fu8n" (enemyPositionsRef firstFrame) = true
  /\ (exists e, In e (enemies firstFrame) /\ e_id e = "zn1fu8n"
                /\ Math_floor (e_progress e) < segments)
  /\ reachableDistinct (H := js) firstFrame
  /\ (forall e, In e (enemies firstFrame) ->
                JsMap.has (e_id e) (enemyPositionsRef firstFrame) = true
                \/ e_progress e = 0%Q).
Proof.
  assert (reachable (H := js) firstFrame) as Hr.
  { apply (reachable_run (H := js) (firstSpawn ++ [EvEnemyFrame 0 (1 # 10)])
             freshGame).
    - apply reachable_init.
    - vm_compute. reflexivity. }
  assert (reachableDistinct (H := js) firstFrame) as Hd.
  { apply (reachableDistinct_run (H := js)
             (firstSpawn ++ [EvEnemyFrame 0 (1 # 10)]) freshGame).
    - apply distinct_init.
    - vm_compute. reflexivity. }
  pose proof (@entries_belong_to_live_enemies js firstFrame Hr)
    as (A & _ & _ & _ & _ & F).
  split; [exact Hr|]. split; [vm_compute; reflexivity|].
  split; [apply (A "zn1fu8n"); vm_compute; reflexivity|].
  split; [exact Hd|exact (F Hd)].
Defined.

(** C3 as stated fails.  [justSpawned] is reachable; its only enemy is in
    the live set, at progress 0, and has no entry; the frame of the tower
    standing on the first waypoint reads the position map in this state and
    finds no target, and the sweep of the projectiles reads it too.
    [twinSurvivor] is reachable as well: two enemies were given the same
    id, both had a frame, and the shot that killed one of them removed the
    entry they shared; the other is in the live set, on its way, and has
    no entry. *)
Lemma entries_counterexample :
  (reachable (H := js) justSpawned
   /\ enemies justSpawned
      = [ {| e_id := "zn1fu8n"; e_type := "basic"; e_hp := 3; e_progress := 0 |} ]
   /\ Math_floor 0 < segments
   /\ JsMap.has "zn1fu8n" (enemyPositionsRef justSpawned) = false
   /\ (exists tower,
          nth_error (towers justSpawned) 0 = Some tower
          /\ t_pos tower = vec (-8) 0 8
          /\ findClosest (H := js) tower (towerConfig tower)
               (enemyPositionsRef justSpawned) = None)
   /\ (exists s', fire (H := js) (EvTowerFrame 0 1) justSpawned = Some s'
                  /\ projectiles s' = []))
  /\ (reachable (H := js) twinSurvivor
      /\ exists e,
           enemies twinSurvivor = [e]
           /\ e_id e = "9" /\ e_hp e = 3
           /\ (0 < e_progress e)%Q
           /\ Math_floor (e_progress e) < segments
           /\ JsMap.has "9" (enemyPositionsRef twinSurvivor) = false).
Proof.
  split.
  - split.
    { apply (reachable_run (H := js) firstSpawn freshGame).
      - apply reachable_init.
      - vm_compute. reflexivity. }
    split; [vm_compute; reflexivity|].
    split; [reflexivity|].
    split; [vm_compute; reflexivity|].
    split.
    + eexists. split; [vm_compute; reflexivity|].
      split; vm_compute; reflexivity.
    + eexists. split; vm_compute; reflexivity.
  - split.
    { apply (reachable_run (H := js) twinKill twinGame).
      - apply reachable_init.
      - vm_compute. reflexivity. }
    eexists. split; [vm_compute; reflexivity|].
    repeat split; vm_compute; reflexivity.
Qed.

(** ** C5: the wave scheduler *)

Lemma floor_half (w : Z) : Math_floor (inject_Z w / 2) = w / 2.
Proof.
  unfold Math_floor, Qdiv, Qmult, Qinv, inject_Z, Qfloor. simpl.
  now rewrite Z.mul_1_r.
Qed.


Section Waves.
Context `{JsBuiltins}.

End Waves.


(** ** C7: the cooldown of a tower *)

Section Cooldown.
Context `{JsBuiltins}.







End Cooldown.

Lemma Qlt_bool_false (a b : Q) : Qlt_bool a b = false <-> (b <= a)%Q.
Proof.
  unfold Qlt_bool. rewrite negb_false_iff. apply Qle_bool_iff.
Qed.

Section Firing.
Context `{JsBuiltins}.

End Firing.


(** ** C8: upgrades *)

Section Upgrades.
Context `{JsBuiltins}.
Variable r : State.




End Upgrades.


(** ** C9: a projectile without target *)

Section LostTarget.
Context `{JsBuiltins}.

(** C9.  A projectile whose target has no entry when its frame starts
    reports [onHit(id, null)]: every projectile carrying its id leaves the
    list, and enemies, position map, money and lives are unchanged. *)
Theorem projectile_without_target_vanishes
    (r : State) (i : nat) (dt : Q) (s : State) (p : Projectile) :
  nth_error (projectiles s) i = Some p ->
  JsMap.get (p_targetId p) (enemyPositionsRef s) = None ->
  exists s',
    ProjectileMesh_frame r i dt s = Some s'
    /\ s' = handleProjectileHit r (p_id p) None s
    /\ projectiles s'
       = filter (fun q => negb (String.eqb (p_id q) (p_id p))) (projectiles s)
    /\ ~ In p (projectiles s')
    /\ enemies s' = enemies s
    /\ enemyPositionsRef s' = enemyPositionsRef s
    /\ money s' = money s
    /\ lives s' = lives s.
Proof.
  intros Hn Hg. unfold ProjectileMesh_frame. rewrite Hn, Hg.
  eexists. split; [reflexivity|]. split; [reflexivity|].
  rewrite handleProjectileHit_null. simpl. repeat split.
  intros Hin. apply filter_In in Hin. destruct Hin as [_ Hin].
  now rewrite String.eqb_refl in Hin.
Qed.
End LostTarget.

(** C9 at [lostTarget]: the target ["e1"] has no entry. *)
Lemma projectile_without_target_vanishes_witness :
  nth_error (projectiles lostTarget) 0 = Some (mkProjectile "p1" "e1" 1 0)
  /\ JsMap.get "e1" (enemyPositionsRef lostTarget) = None
  /\ exists s',
       ProjectileMesh_frame (H := js) lostTarget 0 1 lostTarget = Some s'
       /\ projectiles s' = []
       /\ enemies s' = enemies lostTarget
       /\ money s' = money lostTarget
       /\ lives s' = lives lostTarget.
Proof.
  split; [reflexivity|]. split; [reflexivity|].
  destruct (@projectile_without_target_vanishes js lostTarget 0%nat 1%Q
              lostTarget (mkProjectile "p1" "e1" 1 0) eq_refl eq_refl)
    as (s' & A & _ & C & _ & E & _ & G & K).
  exists s'. split; [exact A|]. split; [exact C|]. split; [exact E|].
  split; [exact G|exact K].
Defined.

(** ** C10: loading a save *)

(** C10.  A saved 0 is falsy: loading a save whose money is 0 sets the
    money to 100, one whose lives are 0 sets the lives to 10, one whose
    wave is 0 sets the wave to 0; a missing field gives the same values. *)
Theorem load_replaces_zero_by_default (s : State) (obj : Save) :
  localStorage s = Some obj ->
  (s_money obj = Some 0 \/ s_money obj = None -> money (loadGame s) = 100)
  /\ (s_lives obj = Some 0 \/ s_lives obj = None -> lives (loadGame s) = 10)
  /\ (s_wave obj = Some 0 \/ s_wave obj = None -> wave (loadGame s) = 0)
  /\ (forall m, s_money obj = Some m -> m <> 0 -> money (loadGame s) = m)
  /\ (forall l, s_lives obj = Some l -> l <> 0 -> lives (loadGame s) = l)
  /\ (forall w, s_wave obj = Some w -> wave (loadGame s) = w).
Proof.
  intros Hs. unfold loadGame. rewrite Hs. simpl.
  repeat split.
  - intros [-> | ->]; reflexivity.
  - intros [-> | ->]; reflexivity.
  - intros [-> | ->]; reflexivity.
  - intros m -> Hm. simpl. unfold orZ. destruct (Z.eqb_spec m 0); congruence.
  - intros l -> Hl. simpl. unfold orZ. destruct (Z.eqb_spec l 0); congruence.
  - intros w ->. simpl. apply orZ_zero.
Qed.

(** C10 at [withEmptySave]: the game loads with 100 money and 10 lives. *)
Lemma load_replaces_zero_by_default_witness :
  localStorage withEmptySave = Some emptySave
  /\ money (loadGame withEmptySave) = 100
  /\ lives (loadGame withEmptySave) = 10
  /\ wave (loadGame withEmptySave) = 0.
Proof.
  split; [reflexivity|].
  destruct (load_replaces_zero_by_default withEmptySave emptySave eq_refl)
    as (A & B & C & _).
  split; [apply A; left; reflexivity|].
  split; [apply B; left; reflexivity|apply C; left; reflexivity].
Defined.

(** * Further properties of the handlers *)

(** ** Placing and selling towers *)

Lemma Math_round_bounds (x : Q) :
  (x - (1 # 2) < inject_Z (Math_round x))%Q
  /\ (inject_Z (Math_round x) <= x + (1 # 2))%Q.
Proof.
  unfold Math_round. split.
  - pose proof (Qlt_floor (x + (1 # 2))) as Hlt.
    rewrite inject_Z_plus in Hlt.
    apply (Qplus_lt_l _ _ 1). 
    eapply Qle_lt_trans; [|exact Hlt].
    apply Qle_lteq. right. ring.
  - apply Qfloor_le.
Qed.

Lemma half_cost (c : Z) : Math_round (inject_Z c * (5 # 10)) = (c + 1) / 2.
Proof.
  unfold Math_round, Qplus, Qmult, inject_Z, Qfloor. simpl.
  replace (c * 5 * 2 + 1 * 10) with ((c + 1) * 10) by lia.
  change 20 with (2 * 10). apply Z.div_mul_cancel_r; lia.
Qed.

Lemma filter_otherTower_all (towerId : string) (ts : list Tower) :
  (forall x, In x ts -> t_id x <> towerId) ->
  filter (otherTower towerId) ts = ts.
Proof.
  induction ts as [|t ts IH]; intros Hno; simpl; auto.
  unfold otherTower at 1.
  destruct (String.eqb_spec (t_id t) towerId) as [E|E]; simpl.
  - exfalso. apply (Hno t); simpl; auto.
  - rewrite IH; auto. intros x Hx. apply Hno. simpl. auto.
Qed.

Lemma find_tower_app (towerId : string) (ts : list Tower) (t : Tower) :
  (forall x, In x ts -> t_id x <> towerId) ->
  t_id t = towerId ->
  find (fun x => String.eqb (t_id x) towerId) (ts ++ [t]) = Some t.
Proof.
  intros Hno Ht. induction ts as [|t0 ts IH]; simpl.
  - rewrite Ht, String.eqb_refl. reflexivity.
  - destruct (String.eqb_spec (t_id t0) towerId) as [E|E].
    + exfalso. apply (Hno t0); simpl; auto.
    + apply IH. intros x Hx. apply Hno. simpl. auto.
Qed.

Section Shop.
Context `{JsBuiltins}.

Lemma onPlaceTower_accepts (r s : State) (x z : Q) (cfg : TowerType) :
  TOWER_TYPES (placingType r) = Some cfg ->
  (money r <? cost cfg) = false ->
  let s' := onPlaceTower r x z s in
  exists t px pz,
    towers s' = towers s ++ [t]
    /\ t_id t = fst (randomId s)
    /\ t_type t = placingType r
    /\ t_level t = 1 /\ t_dmgBonus t = 0
    /\ t_rangeBonus t = 0%Q /\ t_lastShot t = 0%Q
    /\ t_pos t = vec (inject_Z px) 0 (inject_Z pz)
    /\ (x - (1 # 2) < inject_Z px <= x + (1 # 2))%Q
    /\ (z - (1 # 2) < inject_Z pz <= z + (1 # 2))%Q
    /\ money s' = money s - cost cfg
    /\ (money r = money s -> 0 <= money s')
    /\ enemies s' = enemies s /\ projectiles s' = projectiles s
    /\ lives s' = lives s /\ alerts s' = alerts s.
Proof.
  intros Hcfg E. unfold onPlaceTower. rewrite Hcfg, E.
  cbv zeta.
  exists {| t_id := fst (randomId s);
            t_pos := vec (inject_Z (Math_round x)) 0 (inject_Z (Math_round z));
            t_type := placingType r; t_level := 1; t_dmgBonus := 0;
            t_rangeBonus := 0; t_lastShot := 0 |},
         (Math_round x), (Math_round z).
  unfold randomId, Math_random.
  destruct (randoms s); simpl;
    (repeat split; try apply Math_round_bounds;
     intros Hm; apply Z.ltb_ge in E; lia).
Qed.

Lemma sellTower_found (r s : State) (towerId : string) (t : Tower)
    (cfg : TowerType) :
  find (fun x => String.eqb (t_id x) towerId) (towers r) = Some t ->
  TOWER_TYPES (t_type t) = Some cfg ->
  exists s',
    sellTower r towerId s = Some s'
    /\ money s' = money s + (cost cfg + 1) / 2
    /\ towers s' = filter (otherTower towerId) (towers s)
    /\ (forall x, In x (towers s') -> t_id x <> towerId)
    /\ enemies s' = enemies s /\ projectiles s' = projectiles s
    /\ lives s' = lives s.
Proof.
  intros Hf Hcfg. unfold sellTower. rewrite Hf, Hcfg.
  eexists. split; [reflexivity|]. simpl.
  rewrite half_cost. repeat split.
  intros x Hx. apply filter_In in Hx. destruct Hx as [_ Hx].
  destruct (String.eqb_spec (t_id x) towerId); auto. discriminate.
Qed.

(** X1.  [onPlaceTower] rejects an unknown kind first and a price above the
    rendered money second, each time with a message only.  Otherwise it
    appends one tower of level 1 without bonuses, at the grid cell nearest
    to the click (each coordinate rounded, halves upwards), and takes the
    price of the kind from the money; in the render that shows the current
    money the money stays non-negative. *)
Theorem place_tower_outcomes (r s : State) (x z : Q) :
  match TOWER_TYPES (placingType r) with
  | None => onPlaceTower r x z s = alert "Tipus de torre desconegut." s
  | Some cfg =>
      if money r <? cost cfg then
        onPlaceTower r x z s = alert "No tens suficients diners." s
      else
        let s' := onPlaceTower r x z s in
        exists t px pz,
          towers s' = towers s ++ [t]
          /\ t_id t = fst (randomId s)
          /\ t_type t = placingType r
          /\ t_level t = 1 /\ t_dmgBonus t = 0
          /\ t_rangeBonus t = 0%Q /\ t_lastShot t = 0%Q
          /\ t_pos t = vec (inject_Z px) 0 (inject_Z pz)
          /\ (x - (1 # 2) < inject_Z px <= x + (1 # 2))%Q
          /\ (z - (1 # 2) < inject_Z pz <= z + (1 # 2))%Q
          /\ money s' = money s - cost cfg
          /\ (money r = money s -> 0 <= money s')
          /\ enemies s' = enemies s /\ projectiles s' = projectiles s
          /\ lives s' = lives s /\ alerts s' = alerts s
  end.
Proof.
  destruct (TOWER_TYPES (placingType r)) as [cfg|] eqn:Hcfg.
  - destruct (money r <? cost cfg) eqn:E.
    + unfold onPlaceTower. now rewrite Hcfg, E.
    + now apply onPlaceTower_accepts.
  - unfold onPlaceTower. now rewrite Hcfg.
Qed.

(** X2.  Selling the tower the render shows under [towerId] removes every
    tower with that id and refunds [round (baseCost * 0.5)], that is
    [(baseCost + 1) / 2] rounded down: a sum that depends on the kind only,
    not on the level or the bonuses.  Selling an id the render does not
    show refunds nothing. *)
Theorem sell_refunds_half_base_cost (r s : State) (towerId : string) :
  match find (fun x => String.eqb (t_id x) towerId) (towers r) with
  | Some t =>
      forall cfg,
        TOWER_TYPES (t_type t) = Some cfg ->
        exists s',
          sellTower r towerId s = Some s'
          /\ money s' = money s + (cost cfg + 1) / 2
          /\ towers s' = filter (otherTower towerId) (towers s)
          /\ (forall x, In x (towers s') -> t_id x <> towerId)
          /\ enemies s' = enemies s /\ projectiles s' = projectiles s
          /\ lives s' = lives s
  | None =>
      sellTower r towerId s
      = Some (setTowers (filter (otherTower towerId)) s)
      /\ ((forall x, In x (towers s) -> t_id x <> towerId) ->
          towers (setTowers (filter (otherTower towerId)) s) = towers s)
  end.
Proof.
  destruct (find _ (towers r)) as [t|] eqn:Hf.
  - intros cfg Hcfg. now apply (sellTower_found r s towerId t cfg).
  - unfold sellTower. rewrite Hf. split; [reflexivity|]. intros Hno. simpl.
    now apply filter_otherTower_all.
Qed.

(** X4.  Placing a tower and selling it in the next render gives the old
    list of towers back and costs the difference between the price and the
    refund, provided the new id is not the id of an older tower. *)
Theorem place_then_sell (s : State) (x z : Q) (cfg : TowerType) :
  TOWER_TYPES (placingType s) = Some cfg ->
  cost cfg <= money s ->
  (forall t, In t (towers s) -> t_id t <> fst (randomId s)) ->
  let s1 := onPlaceTower s x z s in
  exists s2,
    sellTower s1 (fst (randomId s)) s1 = Some s2
    /\ towers s2 = towers s
    /\ money s2 = money s - cost cfg + (cost cfg + 1) / 2.
Proof.
  intros Hcfg Hm Hfresh s1.
  assert ((money s <? cost cfg) = false) as E by (apply Z.ltb_ge; lia).
  destruct (onPlaceTower_accepts s s x z cfg Hcfg E)
    as (t & px & pz & Ht & Hid & Hty & _ & _ & _ & _ & _ & _ & _ & Hmon & _).
  fold s1 in Ht, Hmon.
  assert (find (fun x => String.eqb (t_id x) (fst (randomId s))) (towers s1)
          = Some t) as Hf
      by (rewrite Ht; now apply find_tower_app).
  rewrite <- Hty in Hcfg.
  destruct (sellTower_found s1 s1 (fst (randomId s)) t cfg Hf Hcfg)
    as (s2 & Hs & Hm2 & Ht2 & _).
  exists s2. split; [exact Hs|]. split.
  - rewrite Ht2, Ht, filter_app, (filter_otherTower_all _ _ Hfresh). simpl.
    unfold otherTower. rewrite Hid, String.eqb_refl. simpl. apply app_nil_r.
  - rewrite Hm2, Hmon. reflexivity.
Qed.
End Shop.

(** ** Saving, loading, resetting *)

Lemma find_own_id (ts : list Tower) (t : Tower) :
  NoDup (map t_id ts) -> In t ts ->
  find (fun t0 => String.eqb (t_id t0) (t_id t)) ts = Some t.
Proof.
  induction ts as [|t0 ts IH]; intros Hnd Hin; [destruct Hin|].
  inversion Hnd as [|? ? Hnot Hnd']; subst. simpl.
  destruct Hin as [->|Hin]; [now rewrite String.eqb_refl|].
  destruct (String.eqb_spec (t_id t0) (t_id t)) as [E|E]; [|now apply IH].
  exfalso. apply Hnot. rewrite E. now apply in_map.
Qed.

Lemma withLastShot_same (t : Tower) : withLastShot (t_lastShot t) t = t.
Proof. now destruct t. Qed.

(** X5.  Saving and then loading gives back the wave of the saving
    render, its money and lives unless they are 0, which come back as 100
    and 10, and its towers with their kind, level, bonuses and position.
    The time since the last shot is no part of a save: a loaded tower has
    the one of the tower shown under its id when the save is loaded, and
    0 if there is none.  Saving and loading in one state whose towers
    have distinct ids gives the towers back as they are.  Loading has no
    effect on the battlefield: enemies, projectiles, position map and
    pending timers stay as they are. *)
Theorem save_then_load (r s : State) :
  let s' := loadGame (saveGame r s) in
  money s' = (if money r =? 0 then 100 else money r)
  /\ lives s' = (if lives r =? 0 then 10 else lives r)
  /\ wave s' = wave r
  /\ List.length (towers s') = List.length (towers r)
  /\ (forall i t,
         nth_error (towers r) i = Some t ->
         exists t',
           nth_error (towers s') i = Some t'
           /\ t_id t' = t_id t /\ t_pos t' = t_pos t /\ t_type t' = t_type t
           /\ t_level t' = t_level t /\ t_dmgBonus t' = t_dmgBonus t
           /\ t_rangeBonus t' = t_rangeBonus t
           /\ t_lastShot t'
              = match find (fun t0 => String.eqb (t_id t0) (t_id t)) (towers s)
                with
                | Some t0 => t_lastShot t0
                | None => 0%Q
                end)
  /\ (NoDup (map t_id (towers s)) ->
      towers (loadGame (saveGame s s)) = towers s)
  /\ enemies s' = enemies s
  /\ projectiles s' = projectiles s
  /\ enemyPositionsRef s' = enemyPositionsRef s
  /\ timers s' = timers s
  /\ alerts s' = alerts s ++ ["Partida guardada."].
Proof.
  unfold loadGame, saveGame. simpl. unfold orZ.
  split; [reflexivity|]. split; [reflexivity|].
  split; [destruct (wave r =? 0) eqn:E; auto; apply Z.eqb_eq in E; auto|].
  split; [now rewrite !length_map|].
  split.
  { intros i t Hn. rewrite map_map, nth_error_map, Hn.
    eexists. split; [reflexivity|]. repeat split. }
  split.
  { intros Hnd. rewrite map_map. rewrite <- (map_id (towers s)) at 2.
    apply map_ext_in. intros t Ht.
    change (mountTower (towers s) (toSaved t))
      with (withLastShot
              match find (fun t0 => String.eqb (t_id t0) (t_id t)) (towers s) with
              | Some t0 => t_lastShot t0
              | None => 0%Q
              end t).
    rewrite (find_own_id _ _ Hnd Ht). apply withLastShot_same. }
  repeat split.
Qed.

Section PendingSpawns.
Context `{JsBuiltins}.

Lemma Math_random_keeps s :
  let s1 := snd (Math_random s) in
  enemies s1 = enemies s /\ wave s1 = wave s /\ timers s1 = timers s
  /\ localStorage s1 = localStorage s /\ lives s1 = lives s
  /\ money s1 = money s.
Proof. unfold Math_random. destruct (randoms s); repeat split. Qed.

Lemma spawnEnemy_keeps type hp s :
  let s1 := spawnEnemy type hp s in
  enemies s1
  = enemies s ++ [ {| e_id := fst (randomId s); e_type := type; e_hp := hp;
                      e_progress := 0 |} ]
  /\ wave s1 = wave s /\ timers s1 = timers s
  /\ localStorage s1 = localStorage s /\ lives s1 = lives s
  /\ money s1 = money s.
Proof.
  unfold spawnEnemy, randomId, Math_random. destruct (randoms s); repeat split.
Qed.

Lemma spawnTimeout_hp currentWave s :
  let s' := spawnTimeout currentWave s in
  (exists e,
      enemies s' = enemies s ++ [e]
      /\ (e_hp e = 6 + currentWave \/ e_hp e = 3 + currentWave / 2))
  /\ wave s' = wave s /\ timers s' = timers s
  /\ localStorage s' = localStorage s /\ lives s' = lives s
  /\ money s' = money s.
Proof.
  unfold spawnTimeout.
  pose proof (Math_random_keeps s) as K1.
  destruct (Math_random s) as [r1 s1]. cbv zeta in K1. simpl snd in K1.
  destruct K1 as (A1 & B1 & C1 & D1 & E1 & F1).
  destruct (Qlt_bool r1 _).
  - cbv beta iota zeta.
    match goal with
    | |- context [spawnEnemy ?t ?hp ?s0] =>
        destruct (spawnEnemy_keeps t hp s0) as (A & B & C & D & E & F)
    end.
    rewrite A, B, C, D, E, F, A1, B1, C1, D1, E1, F1.
    split; [|repeat split].
    eexists. split; [reflexivity|]. right. cbn [e_hp].
    change (String.eqb "fast" "cannon") with false. cbv iota.
    now rewrite floor_half.
  - pose proof (Math_random_keeps s1) as K2.
    destruct (Math_random s1) as [r2 s2]. cbv zeta in K2. simpl snd in K2.
    destruct K2 as (A2 & B2 & C2 & D2 & E2 & F2).
    destruct (Qlt_bool r2 _); cbv beta iota zeta;
      match goal with
      | |- context [spawnEnemy ?t ?hp ?s0] =>
          destruct (spawnEnemy_keeps t hp s0) as (A & B & C & D & E & F)
      end;
      rewrite A, B, C, D, E, F, A2, B2, C2, D2, E2, F2, A1, B1, C1, D1, E1, F1;
      (split; [|repeat split]); eexists; (split; [reflexivity|]); cbn [e_hp].
    + now left.
    + right. change (String.eqb "basic" "cannon") with false. cbv iota.
      now rewrite floor_half.
Qed.

(** X6.  [resetGame] puts money, lives and wave back to 100, 10 and 0 and
    empties the battlefield and the towers, but it cancels no timer: a
    spawn of the wave that was running still fires after the reset, and
    its enemy has the hit points of that wave. *)
Theorem reset_keeps_pending_spawns (s : State) (k : nat) (tm : Timer) :
  nth_error (timers s) k = Some tm ->
  let s0 := resetGame s in
  (money s0 = 100 /\ lives s0 = 10 /\ wave s0 = 0
   /\ enemies s0 = [] /\ projectiles s0 = [] /\ towers s0 = []
   /\ enemyPositionsRef s0 = JsMap.empty /\ timers s0 = timers s)
  /\ exists s' e,
       fire (EvTimeout k) s0 = Some s'
       /\ enemies s' = [e]
       /\ (e_hp e = 6 + tm_wave tm \/ e_hp e = 3 + tm_wave tm / 2)
       /\ wave s' = 0.
Proof.
  intros Hk s0. split; [repeat split|].
  simpl fire. change (timers s0) with (timers s). rewrite Hk.
  destruct (spawnTimeout_hp (tm_wave tm) (setTimers (removeAt k) s0))
    as ((e & He & Hhp) & Hw & _).
  eexists. exists e. split; [reflexivity|]. split; [exact He|].
  split; [exact Hhp|exact Hw].
Qed.
End PendingSpawns.

(** ** The sweep of the projectiles *)

Section Sweep.
Context `{JsBuiltins}.

(** X7.  The effect on [enemies] keeps exactly the projectiles whose target
    has an entry, in their order; running it twice changes nothing more.
    After the frame in which an enemy reaches the end of the path, the
    sweep leaves no projectile that targets it. *)
Theorem sweep_drops_lost_targets (s : State) :
  (forall p, In p (projectiles (cleanProjectiles s))
             <-> In p (projectiles s)
                 /\ JsMap.has (p_targetId p) (enemyPositionsRef s) = true)
  /\ cleanProjectiles (cleanProjectiles s) = cleanProjectiles s
  /\ (forall i dt e s',
         nth_error (enemies s) i = Some e ->
         segments <= Math_floor (advanced e dt) ->
         EnemyMesh_frame i dt s = Some s' ->
         forall p, In p (projectiles (cleanProjectiles s')) ->
                   p_targetId p <> e_id e).
Proof.
  split; [|split].
  - intros p. unfold cleanProjectiles. simpl. apply filter_In.
  - unfold cleanProjectiles, setProjectiles. simpl. f_equal.
    induction (projectiles s) as [|p ps IH]; simpl; auto.
    destruct (JsMap.has (p_targetId p) (enemyPositionsRef s)) eqn:E; simpl; auto.
    rewrite E. now f_equal.
  - intros i dt e s' Hn Hend Hf p Hp Heq.
    rewrite (EnemyMesh_frame_end i dt s e Hn Hend) in Hf.
    apply Some_eq in Hf. subst s'.
    unfold cleanProjectiles in Hp. simpl in Hp.
    apply filter_In in Hp. destruct Hp as [_ Hp].
    rewrite Heq in Hp. unfold JsMap.has in Hp.
    now rewrite JsMapFacts.get_delete_same in Hp.
Qed.
End Sweep.

(** ** The target of a tower *)

Section Targeting.
Context `{JsBuiltins}.

Lemma Qlt_bool_lt (a b : Q) : Qlt_bool a b = true -> (a < b)%Q.
Proof.
  unfold Qlt_bool. rewrite negb_true_iff. intros Hx.
  apply Qnot_le_lt. intros Hle. apply Qle_bool_iff in Hle. congruence.
Qed.

(** The loop of [TowerMesh] after the entries [done]: either nothing was in
    range, or [closest] and [minD] are those of the nearest entry so far. *)
Lemma scan_nearest tower config (rest done : list (string * PosInfo))
    (acc : option Closest * option Q) :
  (acc = (None, None)
   /\ (forall e, In e done -> inRange tower config e = false))
  \/ (exists entry,
         acc = (Some (closestOf entry), Some (distanceTo tower entry))
         /\ nearestInRange tower config done entry) ->
  match fst (fold_left (scanEntry tower config) rest acc) with
  | None => forall e, In e (done ++ rest) -> inRange tower config e = false
  | Some c =>
      exists entry,
        c = closestOf entry
        /\ nearestInRange tower config (done ++ rest) entry
  end.
Proof.
  revert done acc. induction rest as [|x rest IH]; intros done acc Hacc.
  - simpl. rewrite app_nil_r.
    destruct Hacc as [[-> Hno]|(entry & -> & Hn)]; simpl; eauto.
  - simpl. replace (done ++ x :: rest) with ((done ++ [x]) ++ rest)
      by (rewrite <- app_assoc; reflexivity).
    apply IH. unfold scanEntry.
    destruct Hacc as [[-> Hno]|(entry & -> & pre & post & Hd & Hr & Hpre & Hpost)].
    + simpl. destruct (inRange tower config x) eqn:Ex; simpl.
      * right. exists x. split; [reflexivity|].
        exists done, []. repeat split; auto.
        -- intros e He Hin. rewrite (Hno e He) in Hin. discriminate.
        -- intros e [].
      * left. split; auto. intros e He. apply in_app_or in He.
        destruct He as [He|[<-|[]]]; auto.
    + simpl snd. unfold ltMinD.
      destruct (inRange tower config x) eqn:Ex; simpl andb.
      * change (dist (pi_pos (snd x)) (t_pos tower)) with (distanceTo tower x).
        destruct (Qlt_bool (distanceTo tower x) (distanceTo tower entry)) eqn:El.
        -- apply Qlt_bool_lt in El.
           right. exists x. split; [reflexivity|].
           exists done, []. repeat split; auto; [|intros e []].
           intros e He Hin. rewrite Hd in He. apply in_app_or in He.
           destruct He as [He|[<-|He]].
           ++ eapply Qlt_trans; [exact El|]. now apply Hpre.
           ++ exact El.
           ++ eapply Qlt_le_trans; [exact El|]. now apply Hpost.
        -- apply Qlt_bool_false in El.
           right. exists entry. split; [reflexivity|].
           exists pre, (post ++ [x]). repeat split; auto.
           ++ rewrite Hd, <- app_assoc. reflexivity.
           ++ intros e He Hin. apply in_app_or in He.
              destruct He as [He|[<-|[]]]; auto.
      * right. exists entry. split; [reflexivity|].
        exists pre, (post ++ [x]). repeat split; auto.
        -- rewrite Hd, <- app_assoc. reflexivity.
        -- intros e He Hin. apply in_app_or in He.
           destruct He as [He|[<-|[]]]; auto. congruence.
Qed.

(** X8.  When a tower fires, its projectile starts at the tower and homes
    on the nearest entry of the position map within the tower's range: no
    entry in range is nearer, and among the entries at the same distance it
    is the first of the map. *)
Theorem tower_targets_nearest
    (i : nat) (dt : Q) (s s' : State) (tower : Tower) (p : Projectile) :
  nth_error (towers s) i = Some tower ->
  TowerMesh_frame i dt s = Some s' ->
  projectiles s' = projectiles s ++ [p] ->
  exists entry,
    nearestInRange tower (towerConfig tower) (enemyPositionsRef s) entry
    /\ p_targetId p = fst entry
    /\ p_from p = t_pos tower
    /\ p_position p = t_pos tower.
Proof.
  intros Hn Hf Hp. unfold TowerMesh_frame in Hf. rewrite Hn in Hf.
  assert (forall l : list Projectile, l <> l ++ [p]) as Hneq.
  { intros l Hl. apply (f_equal (@List.length _)) in Hl.
    rewrite length_app in Hl. simpl in Hl. lia. }
  destruct (inheritedKey _).
  { apply Some_eq in Hf. subst s'. simpl in Hp. now apply Hneq in Hp. }
  destruct (Qlt_bool _ _).
  { apply Some_eq in Hf. subst s'. simpl in Hp. now apply Hneq in Hp. }
  unfold findClosest, JsMap.entries in Hf. simpl enemyPositionsRef in Hf.
  pose proof (scan_nearest tower (towerConfig tower) (enemyPositionsRef s) []
                (None, None)) as Hs.
  simpl app in Hs.
  destruct (fst (fold_left _ (enemyPositionsRef s) _)) as [c|].
  - destruct Hs as (entry & -> & Hnear).
    { left. split; auto. intros e []. }
    apply Some_eq in Hf. subst s'.
    rewrite projectiles_spawnProjectile in Hp. simpl in Hp.
    apply app_inj_tail in Hp. destruct Hp as [_ <-].
    exists entry. repeat split; auto.
  - apply Some_eq in Hf. subst s'. simpl in Hp. now apply Hneq in Hp.
Qed.
End Targeting.

(** ** What a hit can do to the hit points *)

Lemma projectileDmg_pos (projs : list Projectile) (projId : string) :
  (forall p, In p projs -> 0 <= p_dmg p) -> 1 <= projectileDmg projs projId.
Proof.
  intros Hpos. unfold projectileDmg.
  destruct (find _ projs) as [p|] eqn:Hf; simpl; [|lia].
  apply find_some in Hf. destruct Hf as [Hin _]. specialize (Hpos p Hin).
  unfold orZ. destruct (Z.eqb_spec (p_dmg p) 0); lia.
Qed.

Section HitBounds.
Context `{JsBuiltins}.

(** X9.  In the list a hit report produces before the dead are removed, the
    enemy at a position other than the target's is the enemy that was
    there, unchanged, if the report has no splash.  If no rendered
    projectile stores a negative damage, the damage of a report is at least
    1, no enemy gains hit points, the target loses at least 1, and nobody
    loses more than twice the damage. *)
Theorem hit_changes_are_bounded
    (projs : list Projectile) (projId : string) (h : HitInfo)
    (positions : JsMap.t PosInfo) (ti : nat) (prev : list Enemy)
    (j : nat) (e e' : Enemy) :
  nth_error prev j = Some e ->
  nth_error (damaged projs projId h positions ti prev) j = Some e' ->
  let d := projectileDmg projs projId in
  ((h_splash h == 0)%Q -> j <> ti -> e' = e)
  /\ ((forall p, In p projs -> 0 <= p_dmg p) ->
      1 <= d
      /\ e_hp e - 2 * d <= e_hp e' <= e_hp e
      /\ (j = ti -> e_hp e' <= e_hp e - 1)).
Proof.
  intros Hn Hn' d.
  destruct (nth_error_damaged projs projId h positions ti prev j e Hn)
    as (e1 & Hn1 & Hid & Hty & Hpr & Hhp).
  rewrite Hn' in Hn1. injection Hn1 as <-. fold d in Hhp.
  split.
  - intros Hs Hj. apply Qeq_bool_iff in Hs. rewrite Hs in Hhp.
    destruct (Nat.eqb_spec ti j) as [E|_]; [congruence|].
    cbn [negb andb] in Hhp.
    assert (e_hp e' = e_hp e) as Hhp' by lia.
    destruct e, e'. cbn in Hid, Hty, Hpr, Hhp'. congruence.
  - intros Hpos. pose proof (projectileDmg_pos projs projId Hpos) as Hd.
    fold d in Hd. split; [exact Hd|].
    destruct (Nat.eqb_spec ti j) as [E|E];
      destruct (negb (Qeq_bool (h_splash h) 0)
                && splashed positions (h_hitPos h) (h_splash h) e);
      split; try lia; intros; try lia; congruence.
Qed.
End HitBounds.

(** ** The path *)

Section Diagonal.
Context `{JsBuiltins}.

End Diagonal.

(** ** What the events leave alone *)

Section Keeps.
Context `{JsBuiltins}.

Lemma keepsGame_refl s : keepsGame s s.
Proof. repeat split. Qed.

Lemma keepsGame_onPlaceTower r x z s : keepsGame s (onPlaceTower r x z s).
Proof.
  unfold onPlaceTower. destruct (TOWER_TYPES _); [|repeat split].
  destruct (_ <? _); [repeat split|].
  unfold randomId, Math_random. destruct (randoms s); repeat split.
Qed.

Lemma keepsGame_upgradeMap r towerId prev s ts s' :
  upgradeMap r towerId prev s = Some (ts, s') -> keepsGame s s'.
Proof.
  revert s ts s'. induction prev as [|t prev IH]; intros s ts s'; simpl.
  - intros E. apply Some_eq in E. injection E as _ <-. apply keepsGame_refl.
  - destruct (negb _).
    + destruct (upgradeMap r towerId prev s) as [[ts0 s0]|] eqn:E; [|discriminate].
      intros E'. apply Some_eq in E'. injection E' as _ <-. eauto.
    + destruct (TOWER_TYPES _) as [cfg|]; [|discriminate].
      destruct (_ <? _);
        (destruct (upgradeMap r towerId prev _) as [[ts0 s0]|] eqn:E; [|discriminate]);
        intros E'; apply Some_eq in E'; injection E' as _ <-;
        apply IH in E; exact E.
Qed.

Lemma keepsGame_upgradeTower r towerId s s' :
  upgradeTower r towerId s = Some s' -> keepsGame s s'.
Proof.
  unfold upgradeTower.
  destruct (upgradeMap r towerId (towers s) s) as [[ts s0]|] eqn:E; [|discriminate].
  intros E'. apply Some_eq in E'. subst s'.
  apply keepsGame_upgradeMap in E. exact E.
Qed.

Lemma keepsGame_sellTower r towerId s s' :
  sellTower r towerId s = Some s' -> keepsGame s s'.
Proof.
  unfold sellTower. destruct (find _ _) as [t|].
  - destruct (TOWER_TYPES _); [|discriminate].
    intros E. apply Some_eq in E. subst s'. repeat split.
  - intros E. apply Some_eq in E. subst s'. repeat split.
Qed.

Lemma keepsGame_spawnProjectile fromTowerId fromPos targetId d sp s :
  keepsGame s (spawnProjectile fromTowerId fromPos targetId d sp s).
Proof.
  unfold spawnProjectile, randomId, Math_random.
  destruct (randoms s); repeat split.
Qed.

Lemma keepsGame_TowerMesh_frame i dt s s' :
  TowerMesh_frame i dt s = Some s' -> keepsGame s s'.
Proof.
  unfold TowerMesh_frame. destruct (nth_error _ _) as [tower|]; [|discriminate].
  destruct (inheritedKey _);
    [intros E; apply Some_eq in E; subst s'; repeat split|].
  destruct (Qlt_bool _ _);
    [intros E; apply Some_eq in E; subst s'; repeat split|].
  destruct (findClosest _ _ _);
    [|intros E; apply Some_eq in E; subst s'; repeat split].
  intros E. apply Some_eq in E. subst s'.
  match goal with
  | |- keepsGame _ (spawnProjectile ?a ?b ?c ?d ?e ?s0) =>
      destruct (keepsGame_spawnProjectile a b c d e s0) as (A & B & C & D & E)
  end.
  repeat split; [rewrite A|rewrite B|rewrite C|rewrite D|rewrite E]; reflexivity.
Qed.

(** A hit report changes the enemies only. *)
Lemma handleProjectileHit_keeps r projId hitInfo s :
  let s' := handleProjectileHit r projId hitInfo s in
  wave s' = wave s /\ timers s' = timers s
  /\ localStorage s' = localStorage s /\ lives s' = lives s
  /\ towers s' = towers s.
Proof.
  unfold handleProjectileHit. destruct hitInfo as [h|]; [|repeat split].
  simpl. destruct (JsMap.get _ _); [|repeat split].
  destruct (collectKills _ _ _) as [[kept reward] positions].
  destruct (reward =? 0); repeat split.
Qed.

Lemma handleProjectileHit_alive r projId hitInfo s :
  (forall e, In e (enemies s) -> 0 < e_hp e) ->
  forall e, In e (enemies (handleProjectileHit r projId hitInfo s)) -> 0 < e_hp e.
Proof.
  intros Hs e. destruct hitInfo as [h|]; [|apply Hs].
  destruct (JsMap.get (h_targetId h) (byId (enemies s))) as [ti|] eqn:Hg.
  - destruct (handleProjectileHit_hit r projId h s ti Hg) as (-> & _).
    intros He. apply filter_In in He. destruct He as [_ He].
    unfold alive in He. destruct (Z.leb_spec (e_hp e) 0); [discriminate|lia].
  - rewrite (handleProjectileHit_gone r projId h s Hg). apply Hs.
Qed.

(** A frame of a projectile is a move of the projectile, a hit report, or
    both. *)
Lemma ProjectileMesh_frame_cases r i dt s s' :
  ProjectileMesh_frame r i dt s = Some s' ->
  exists p s1 hitInfo,
    nth_error (projectiles s) i = Some p
    /\ (s1 = s \/ exists pos, s1 = setProjectiles (updateAt i (withPosition pos)) s)
    /\ (s' = s1 \/ s' = handleProjectileHit r (p_id p) hitInfo s1).
Proof.
  unfold ProjectileMesh_frame.
  destruct (nth_error (projectiles s) i) as [p|]; [|discriminate].
  destruct (JsMap.get _ _) as [target|].
  - destruct (Qlt_bool _ _); intros E; apply Some_eq in E; subst s'.
    + eexists p, _, _. split; [reflexivity|]. split; [right; eexists; reflexivity|].
      right. reflexivity.
    + eexists p, _, None. split; [reflexivity|]. split; [right; eexists; reflexivity|].
      left. reflexivity.
  - intros E; apply Some_eq in E; subst s'.
    exists p, s, None. split; [reflexivity|]. split; [now left|]. now right.
Qed.

Lemma EnemyMesh_frame_keeps i dt s s' :
  EnemyMesh_frame i dt s = Some s' ->
  wave s' = wave s /\ timers s' = timers s /\ localStorage s' = localStorage s
  /\ (forall e', In e' (enemies s') ->
                 exists e, In e (enemies s) /\ e_hp e' = e_hp e)
  /\ (exists e,
         nth_error (enemies s) i = Some e
         /\ lives s'
            = if segments <=? Math_floor (advanced e dt)
              then lives s - 1 else lives s).
Proof.
  intros Hf.
  destruct (nth_error (enemies s) i) as [e|] eqn:Hn;
    [|unfold EnemyMesh_frame in Hf; rewrite Hn in Hf; discriminate].
  assert (forall x e', In e' (updateAt i (withProgress x) (enemies s)) ->
                       exists e0, In e0 (enemies s) /\ e_hp e' = e_hp e0) as Hup.
  { intros x e' He'. apply In_updateAt_withProgress in He'.
    destruct He' as [He'|(e0 & Hn0 & ->)]; eauto.
    exists e0. split; [eapply nth_error_In; eauto|reflexivity]. }
  destruct (Z.le_gt_cases segments
              (Math_floor (advanced e dt)))
    as [Hend|Hmove].
  - rewrite (EnemyMesh_frame_end i dt s e Hn Hend) in Hf.
    apply Some_eq in Hf. subst s'.
    split; [reflexivity|]. split; [reflexivity|]. split; [reflexivity|].
    split.
    + intros e' He'. unfold handleEnemyReachEnd in He'. simpl in He'.
      apply filter_In in He'. destruct He' as [He' _]. exact (Hup _ _ He').
    + exists e. split; [reflexivity|].
      destruct (Z.leb_spec segments (Math_floor (advanced e dt))); [|lia].
      reflexivity.
  - unfold EnemyMesh_frame in Hf. rewrite Hn in Hf. fold segments in Hf.
    destruct (Z.leb_spec segments
                (Math_floor (advanced e dt)));
      [lia|].
    destruct (PATH_at _); [|discriminate].
    destruct (PATH_at _); [|discriminate].
    apply Some_eq in Hf. subst s'.
    split; [reflexivity|]. split; [reflexivity|]. split; [reflexivity|].
    split; [intros e' He'; simpl in He'; exact (Hup _ _ He')|].
    exists e. split; [reflexivity|].
    destruct (Z.leb_spec segments (Math_floor (advanced e dt))); [lia|].
    reflexivity.
Qed.
End Keeps.

(** ** Hit points and lives along the runs of the game *)

Lemma length_updateAt {A} (f : A -> A) (l : list A) (i : nat) :
  List.length (updateAt i f l) = List.length l.
Proof.
  revert i. induction l as [|x l IH]; intros [|i]; simpl; auto.
Qed.

Lemma In_removeAt {A} (k : nat) (l : list A) (x : A) :
  In x (removeAt k l) -> In x l.
Proof.
  revert k. induction l as [|y l IH]; intros [|k]; simpl; auto.
  intros [<-|Hx]; eauto.
Qed.

Lemma healthy_keepsGame (s s' : State) :
  keepsGame s s' -> healthy s -> healthy s'.
Proof.
  intros (He & Hw & Ht & Hl & _) (H1 & H2 & H3 & H4).
  unfold healthy. rewrite He, Hw, Ht, Hl. auto.
Qed.

Section Health.
Context `{JsBuiltins}.

Lemma healthy_handleProjectileHit r projId hitInfo s :
  healthy s -> healthy (handleProjectileHit r projId hitInfo s).
Proof.
  intros (H1 & H2 & H3 & H4).
  destruct (handleProjectileHit_keeps r projId hitInfo s) as (Hw & Ht & Hl & _).
  unfold healthy. rewrite Hw, Ht, Hl. repeat split; auto.
  now apply handleProjectileHit_alive.
Qed.

Lemma healthy_fire ev s s' : healthy s -> fire ev s = Some s' -> healthy s'.
Proof.
  intros Hs. pose proof Hs as (H1 & H2 & H3 & H4). destruct ev; simpl.
  - destruct (TOWER_TYPES k); [|discriminate].
    intros E. apply Some_eq in E. subst s'. exact Hs.
  - intros E. apply Some_eq in E. subst s'.
    eapply healthy_keepsGame; [apply keepsGame_onPlaceTower|exact Hs].
  - intros E. eapply healthy_keepsGame; [|exact Hs].
    eapply keepsGame_upgradeTower; eauto.
  - intros E. eapply healthy_keepsGame; [|exact Hs].
    eapply keepsGame_sellTower; eauto.
  - intros E. apply Some_eq in E. subst s'.
    unfold healthy. simpl. repeat split; auto; [lia|contradiction].
  - intros E. apply Some_eq in E. subst s'.
    unfold healthy. simpl. repeat split; auto.
    intros obj w Ho Hw. apply Some_eq in Ho. subst obj. simpl in Hw.
    apply Some_eq in Hw. lia.
  - intros E. apply Some_eq in E. subst s'. unfold loadGame.
    destruct (localStorage s) as [obj|] eqn:Ho; [|exact Hs].
    unfold healthy. simpl. rewrite Ho. repeat split; auto.
    destruct (s_wave obj) as [w|] eqn:Hw; simpl; [|lia].
    rewrite orZ_zero. eapply H3; eauto.
  - intros E. apply Some_eq in E. subst s'.
    unfold healthy. simpl. repeat split; auto; [lia|].
    intros tm Htm. apply in_app_or in Htm. destruct Htm as [Htm|Htm]; auto.
    apply in_map_iff in Htm. destruct Htm as (i & <- & _). simpl. lia.
  - destruct (nth_error (timers s) k) as [tm|] eqn:Hk; [|discriminate].
    intros E. apply Some_eq in E. subst s'.
    destruct (spawnTimeout_hp (tm_wave tm) (setTimers (removeAt k) s))
      as ((e & He & Hhp) & Hw & Ht & Hl & _).
    unfold healthy. rewrite He, Hw, Ht, Hl. simpl.
    pose proof (H2 tm (nth_error_In _ _ Hk)) as Htm.
    repeat split; auto.
    + intros tm' Htm'. apply H2. eapply In_removeAt; eauto.
    + intros e' He'. apply in_app_or in He'.
      destruct He' as [He'|[<-|[]]]; auto.
      assert (0 <= tm_wave tm / 2) by (apply Z.div_pos; lia).
      destruct Hhp as [-> | ->]; lia.
  - destruct (Qle_bool 0 dt); [|discriminate]. intros E.
    destruct (EnemyMesh_frame_keeps i dt s s' E) as (Hw & Ht & Hl & He & _).
    unfold healthy. rewrite Hw, Ht, Hl. repeat split; auto.
    intros e' He'. destruct (He e' He') as (e & Hin & ->). auto.
  - destruct (Qle_bool 0 dt); [|discriminate]. intros E.
    eapply healthy_keepsGame; [|exact Hs].
    eapply keepsGame_TowerMesh_frame; eauto.
  - destruct (Qle_bool 0 dt); [|discriminate]. intros E.
    destruct (ProjectileMesh_frame_cases s i dt s s' E)
      as (p & s1 & hitInfo & _ & Hs1 & Hs').
    assert (healthy s1) as Hh1.
    { destruct Hs1 as [->|(pos & ->)]; [exact Hs|].
      eapply healthy_keepsGame; [|exact Hs]. repeat split. }
    destruct Hs' as [->| ->]; [exact Hh1|].
    now apply healthy_handleProjectileHit.
  - intros E. apply Some_eq in E. subst s'.
    eapply healthy_keepsGame; [|exact Hs]. repeat split.
Qed.

(** X11.  In a game that starts without a stored save, whatever the player
    does and whatever the frames and timers do, the wave counter never
    goes below 0 and every enemy of the live set has positive hit points:
    enemies are spawned with at least 3, and a hit removes the ones it
    brings to 0 or below before anything else reads the live set. *)
Theorem live_enemies_have_hit_points
    (rs : list Q) (evs : list Event) (s : State) :
  run evs (initialState None rs) = Some s ->
  0 <= wave s /\ forall e, In e (enemies s) -> 0 < e_hp e.
Proof.
  intros Hrun.
  assert (healthy (initialState None rs)) as H0.
  { unfold healthy. simpl. repeat split; try contradiction; try discriminate. }
  assert (healthy s) as (H1 & _ & _ & H4); [|auto].
  revert Hrun H0. generalize (initialState None rs).
  induction evs as [|ev evs IH]; intros s0 Hrun H0; simpl in Hrun.
  - apply Some_eq in Hrun. now subst.
  - destruct (fire ev s0) as [s1|] eqn:Hf; [|discriminate].
    eapply IH; eauto. eapply healthy_fire; eauto.
Qed.

(** X12.  Lives change in three ways only: [resetGame] sets them to 10,
    [loadGame] sets them to the stored value (10 if it is 0 or missing),
    and the frame of an enemy takes exactly one if the floor of the
    enemy's new progress has reached the number of path segments, and
    none if it has not.  No hit, shot, purchase, sale, save or wave start
    touches them. *)
Theorem lives_change_only_at_path_end (ev : Event) (s s' : State) :
  fire ev s = Some s' ->
  match ev with
  | EvReset => lives s' = 10
  | EvLoad =>
      match localStorage s with
      | Some obj => lives s' = orUndefZ (s_lives obj) 10
      | None => lives s' = lives s
      end
  | EvEnemyFrame i dt =>
      exists e,
        nth_error (enemies s) i = Some e
        /\ lives s'
           = if segments <=? Math_floor (advanced e dt)
             then lives s - 1 else lives s
  | _ => lives s' = lives s
  end.
Proof.
  destruct ev; simpl.
  - destruct (TOWER_TYPES k); [|discriminate].
    intros E. apply Some_eq in E. now subst s'.
  - intros E. apply Some_eq in E. subst s'. apply keepsGame_onPlaceTower.
  - intros E. eapply keepsGame_upgradeTower; eauto.
  - intros E. eapply keepsGame_sellTower; eauto.
  - intros E. apply Some_eq in E. now subst s'.
  - intros E. apply Some_eq in E. now subst s'.
  - intros E. apply Some_eq in E. subst s'. unfold loadGame.
    destruct (localStorage s); reflexivity.
  - intros E. apply Some_eq in E. now subst s'.
  - destruct (nth_error (timers s) k) as [tm|]; [|discriminate].
    intros E. apply Some_eq in E. subst s'.
    now destruct (spawnTimeout_hp (tm_wave tm) (setTimers (removeAt k) s))
      as (_ & _ & _ & _ & -> & _).
  - destruct (Qle_bool 0 dt); [|discriminate]. intros E.
    now destruct (EnemyMesh_frame_keeps i dt s s' E) as (_ & _ & _ & _ & Hl).
  - destruct (Qle_bool 0 dt); [|discriminate]. intros E.
    eapply keepsGame_TowerMesh_frame; eauto.
  - destruct (Qle_bool 0 dt); [|discriminate]. intros E.
    destruct (ProjectileMesh_frame_cases s i dt s s' E)
      as (p & s1 & hitInfo & _ & Hs1 & Hs').
    assert (lives s1 = lives s) as Hl1
        by (destruct Hs1 as [->|(pos & ->)]; reflexivity).
    destruct Hs' as [->| ->]; [exact Hl1|].
    destruct (handleProjectileHit_keeps s (p_id p) hitInfo s1) as (_ & _ & _ & -> & _).
    exact Hl1.
  - intros E. apply Some_eq in E. now subst s'.
Qed.

Lemma handleProjectileHit_shrinks r projId hitInfo s :
  (List.length (enemies (handleProjectileHit r projId hitInfo s))
   <= List.length (enemies s))%nat.
Proof.
  destruct hitInfo as [h|]; [|reflexivity].
  destruct (JsMap.get (h_targetId h) (byId (enemies s))) as [ti|] eqn:Hg.
  - destruct (handleProjectileHit_hit r projId h s ti Hg) as (-> & _).
    rewrite <- (length_damaged (projectiles r) projId h (enemyPositionsRef s)
                  ti (enemies s)).
    apply filter_length_le.
  - rewrite (handleProjectileHit_gone r projId h s Hg). reflexivity.
Qed.

(** X13.  A frame of a projectile never changes towers, lives or wave and
    adds neither enemies nor projectiles; the money grows by 10 for every
    enemy that leaves the live set in it and never shrinks. *)
Theorem projectile_frame_only_removes
    (r : State) (i : nat) (dt : Q) (s s' : State) :
  ProjectileMesh_frame r i dt s = Some s' ->
  towers s' = towers s /\ lives s' = lives s /\ wave s' = wave s
  /\ (List.length (enemies s') <= List.length (enemies s))%nat
  /\ (List.length (projectiles s') <= List.length (projectiles s))%nat
  /\ money s'
     = money s + 10 * (Z.of_nat (List.length (enemies s))
                       - Z.of_nat (List.length (enemies s')))
  /\ money s <= money s'.
Proof.
  intros E.
  destruct (ProjectileMesh_frame_cases r i dt s s' E)
    as (p & s1 & hitInfo & _ & Hs1 & Hs').
  assert (towers s1 = towers s /\ lives s1 = lives s /\ wave s1 = wave s
          /\ enemies s1 = enemies s /\ money s1 = money s
          /\ List.length (projectiles s1) = List.length (projectiles s))
    as (At & Al & Aw & Ae & Am & Ap).
  { destruct Hs1 as [->|(pos & ->)]; repeat split. simpl.
    apply length_updateAt. }
  pose proof (fun id => handleProjectileHit_shrinks r id hitInfo s1) as Hlen.
  destruct Hs' as [->| ->].
  - rewrite At, Al, Aw, Ae, Am, Ap. repeat split; auto; lia.
  - destruct (handleProjectileHit_keeps r (p_id p) hitInfo s1)
      as (Hw & _ & _ & Hl & Ht).
    destruct (handleProjectileHit_accounts r (p_id p) hitInfo s1) as (Hm & _ & _).
    specialize (Hlen (p_id p)). cbv zeta in Hw, Hl, Ht, Hm.
    rewrite Ht, Hl, Hw, Hm, At, Al, Aw, Am. rewrite Ae in *.
    repeat split; auto; try lia.
    assert (projectiles (handleProjectileHit r (p_id p) hitInfo s1)
            = filter (fun q => negb (String.eqb (p_id q) (p_id p)))
                     (projectiles s1)) as ->.
    { unfold handleProjectileHit. destruct hitInfo as [h|]; [|reflexivity].
      simpl. destruct (JsMap.get _ _); [|reflexivity].
      destruct (collectKills _ _ _) as [[kept reward] positions].
      destruct (reward =? 0); reflexivity. }
    rewrite <- Ap. apply filter_length_le.
Qed.
End Health.

(** ** The price of an upgrade *)

Lemma Math_round_le (x y : Q) : (x <= y)%Q -> Math_round x <= Math_round y.
Proof.
  intros Hxy. unfold Math_round. apply Qfloor_resp_le.
  apply Qplus_le_compat; [exact Hxy|apply Qle_refl].
Qed.

Lemma Math_round_integer (c : Z) : Math_round (inject_Z c) = c.
Proof.
  unfold Math_round, Qplus, inject_Z, Qfloor. simpl.
  rewrite Z.mul_1_r. replace (c * 2 + 1) with (1 + c * 2) by lia.
  rewrite Z.div_add by lia. reflexivity.
Qed.

Lemma power_step (L : Z) :
  (Math_pow (16 # 10) L <= Math_pow (16 # 10) (L + 1))%Q.
Proof.
  unfold Math_pow. rewrite Qpower_plus by discriminate.
  assert (0 < (16 # 10) ^ L)%Q as Hpos by (apply Qpower_0_lt; reflexivity).
  rewrite <- (Qmult_1_r ((16 # 10) ^ L)) at 1.
  apply Qmult_le_l; [exact Hpos|discriminate].
Qed.

(** X14.  For every kind of the table the price of an upgrade does not go
    down with the level, and from level 0 on it is at least the price of
    the tower. *)
Theorem upgrade_price_grows (type : string) (cfg : TowerType) (L : Z) :
  TOWER_TYPES type = Some cfg ->
  upgradeCost cfg L <= upgradeCost cfg (L + 1)
  /\ (0 <= L -> cost cfg <= upgradeCost cfg L).
Proof.
  intros Hcfg.
  assert (0 <= inject_Z (cost cfg))%Q as Hc.
  { destruct (TOWER_TYPES_cases type cfg Hcfg) as [->|[->|[->| ->]]];
      discriminate. }
  unfold upgradeCost. split.
  - apply Math_round_le. rewrite !(Qmult_comm (inject_Z (cost cfg))).
    apply Qmult_le_compat_r; [apply power_step|exact Hc].
  - intros HL. rewrite <- (Math_round_integer (cost cfg)) at 1.
    apply Math_round_le.
    rewrite <- (Qmult_1_r (inject_Z (cost cfg))) at 1.
    rewrite !(Qmult_comm (inject_Z (cost cfg))).
    apply Qmult_le_compat_r; [|exact Hc].
    apply Qpower_1_le; [discriminate|exact HL].
Qed.

(** ** Where the money goes *)

Lemma upgradeCost_nonneg (type : string) (cfg : TowerType) (L : Z) :
  TOWER_TYPES type = Some cfg -> 0 <= upgradeCost cfg L /\ 0 <= cost cfg.
Proof.
  intros Hcfg.
  assert (0 <= cost cfg) as Hc
      by (destruct (TOWER_TYPES_cases type cfg Hcfg) as [->|[->|[->| ->]]];
          discriminate).
  split; [|exact Hc].
  unfold upgradeCost. change 0 with (Math_round 0). apply Math_round_le.
  apply Qmult_le_0_compat.
  - change 0%Q with (inject_Z 0). now rewrite <- Zle_Qle.
  - apply Qlt_le_weak, Qpower_0_lt. reflexivity.
Qed.

Section Money.
Context `{JsBuiltins}.

Lemma money_upgradeMap r towerId prev s ts s' :
  upgradeMap r towerId prev s = Some (ts, s') -> money s' <= money s.
Proof.
  revert s ts s'. induction prev as [|t prev IH]; intros s ts s'; simpl.
  - intros E. apply Some_eq in E. injection E as _ <-. lia.
  - destruct (negb _).
    + destruct (upgradeMap r towerId prev s) as [[ts0 s0]|] eqn:E; [|discriminate].
      intros E'. apply Some_eq in E'. injection E' as _ <-. eauto.
    + destruct (TOWER_TYPES (t_type t)) as [cfg|] eqn:Hcfg; [|discriminate].
      destruct (upgradeCost_nonneg _ cfg (t_level t) Hcfg) as [Hpos _].
      destruct (_ <? _);
        (destruct (upgradeMap r towerId prev _) as [[ts0 s0]|] eqn:E; [|discriminate]);
        intros E'; apply Some_eq in E'; injection E' as _ <-;
        apply IH in E; simpl in E; lia.
Qed.

Lemma money_EnemyMesh_frame i dt s s' :
  EnemyMesh_frame i dt s = Some s' -> money s' = money s.
Proof.
  unfold EnemyMesh_frame. destruct (nth_error _ _) as [e|]; [|discriminate].
  destruct (_ <=? _).
  - intros E. apply Some_eq in E. now subst s'.
  - destruct (PATH_at _); [|discriminate]. destruct (PATH_at _); [|discriminate].
    intros E. apply Some_eq in E. now subst s'.
Qed.

Lemma money_TowerMesh_frame i dt s s' :
  TowerMesh_frame i dt s = Some s' -> money s' = money s.
Proof.
  unfold TowerMesh_frame. destruct (nth_error _ _) as [tower|]; [|discriminate].
  destruct (inheritedKey _); [intros E; apply Some_eq in E; now subst s'|].
  destruct (Qlt_bool _ _); [intros E; apply Some_eq in E; now subst s'|].
  destruct (findClosest _ _ _); [|intros E; apply Some_eq in E; now subst s'].
  intros E. apply Some_eq in E. subst s'.
  match goal with
  | |- money (spawnProjectile ?a ?b ?c ?d ?e ?s0) = _ =>
      destruct (spawnProjectile_rest a b c d e s0) as (_ & _ & _ & -> & _)
  end.
  reflexivity.
Qed.

(** X15.  Money moves in one direction per event: placing and upgrading
    never raise it, selling and the frame of a projectile (the rewards)
    never lower it, [resetGame] sets it to 100, [loadGame] to the stored
    value (100 if it is 0 or missing), and the frames of enemies and
    towers, the timers, the start of a wave and saving leave it alone. *)
Theorem money_moves_one_way (ev : Event) (s s' : State) :
  fire ev s = Some s' ->
  match ev with
  | EvPlaceTower _ _ | EvUpgrade _ => money s' <= money s
  | EvSell _ | EvProjectileFrame _ _ => money s <= money s'
  | EvReset => money s' = 100
  | EvLoad =>
      match localStorage s with
      | Some obj => money s' = orUndefZ (s_money obj) 100
      | None => money s' = money s
      end
  | _ => money s' = money s
  end.
Proof.
  destruct ev; simpl.
  - destruct (TOWER_TYPES k); [|discriminate].
    intros E. apply Some_eq in E. now subst s'.
  - intros E. apply Some_eq in E. subst s'. unfold onPlaceTower.
    destruct (TOWER_TYPES (placingType s)) as [cfg|] eqn:Hcfg; [|simpl; lia].
    destruct (upgradeCost_nonneg _ cfg 0 Hcfg) as [_ Hc].
    destruct (_ <? _); [simpl; lia|].
    unfold randomId, Math_random. destruct (randoms s); simpl; lia.
  - unfold upgradeTower.
    destruct (upgradeMap s towerId (towers s) s) as [[ts s0]|] eqn:E; [|discriminate].
    intros E'. apply Some_eq in E'. subst s'. simpl.
    eapply money_upgradeMap; eauto.
  - unfold sellTower. destruct (find _ _) as [t|].
    + destruct (TOWER_TYPES (t_type t)) as [cfg|] eqn:Hcfg; [|discriminate].
      destruct (upgradeCost_nonneg _ cfg 0 Hcfg) as [_ Hc].
      intros E. apply Some_eq in E. subst s'. simpl. rewrite half_cost.
      assert (0 <= (cost cfg + 1) / 2) by (apply Z.div_pos; lia). lia.
    + intros E. apply Some_eq in E. subst s'. simpl. lia.
  - intros E. apply Some_eq in E. now subst s'.
  - intros E. apply Some_eq in E. now subst s'.
  - intros E. apply Some_eq in E. subst s'. unfold loadGame.
    destruct (localStorage s); reflexivity.
  - intros E. apply Some_eq in E. now subst s'.
  - destruct (nth_error (timers s) k) as [tm|]; [|discriminate].
    intros E. apply Some_eq in E. subst s'.
    now destruct (spawnTimeout_hp (tm_wave tm) (setTimers (removeAt k) s))
      as (_ & _ & _ & _ & _ & ->).
  - destruct (Qle_bool 0 dt); [|discriminate]. apply money_EnemyMesh_frame.
  - destruct (Qle_bool 0 dt); [|discriminate]. apply money_TowerMesh_frame.
  - destruct (Qle_bool 0 dt); [|discriminate]. intros E.
    destruct (ProjectileMesh_frame_cases s i dt s s' E)
      as (p & s1 & hitInfo & _ & Hs1 & Hs').
    assert (money s1 = money s) as Hm1
        by (destruct Hs1 as [->|(pos & ->)]; reflexivity).
    destruct Hs' as [->| ->]; [lia|].
    destruct (handleProjectileHit_accounts s (p_id p) hitInfo s1) as (Hm & _ & _).
    pose proof (handleProjectileHit_shrinks s (p_id p) hitInfo s1) as Hlen.
    cbv zeta in Hm. rewrite Hm, Hm1. lia.
  - intros E. apply Some_eq in E. now subst s'.
Qed.
End Money.

(** ** The further properties on sample inputs *)

(** X4 at [freshGame]: a basic tower bought for 30 and sold for 15. *)
Lemma place_then_sell_witness :
  TOWER_TYPES (placingType freshGame) = Some TOWER_basic
  /\ cost TOWER_basic <= money freshGame
  /\ (forall t, In t (towers freshGame) ->
                t_id t <> fst (randomId (H := js) freshGame))
  /\ exists s2,
       sellTower (onPlaceTower (H := js) freshGame (27 # 10) (-35 # 10) freshGame)
         "c"
         (onPlaceTower (H := js) freshGame (27 # 10) (-35 # 10) freshGame)
       = Some s2
       /\ towers s2 = []
       /\ money s2 = 100 - 30 + 15.
Proof.
  split; [reflexivity|]. split; [vm_compute; discriminate|].
  split; [intros t []|].
  exact (@place_then_sell js freshGame (27 # 10) (-35 # 10) TOWER_basic eq_refl
           ltac:(vm_compute; discriminate)
           (fun t (Ht : In t []) => match Ht with end)).
Defined.

(** X6 at [waveStarted]: the first timer of wave 1 survives a reset. *)
Lemma reset_keeps_pending_spawns_witness :
  nth_error (timers waveStarted) 0 = Some {| tm_delay := 0; tm_wave := 1 |}
  /\ exists s' e,
       fire (H := js) (EvTimeout 0) (resetGame waveStarted) = Some s'
       /\ enemies s' = [e]
       /\ (e_hp e = 6 + 1 \/ e_hp e = 3 + 1 / 2)
       /\ wave s' = 0.
Proof.
  split; [reflexivity|].
  exact (proj2 (@reset_keeps_pending_spawns js waveStarted 0%nat
                  {| tm_delay := 0; tm_wave := 1 |} eq_refl)).
Defined.

(** X8 at [twoInRange]: the tower fires at ["near"], the second entry. *)
Lemma tower_targets_nearest_witness :
  nth_error (towers twoInRange) 0 = Some basicTower
  /\ TowerMesh_frame (H := js) 0 0 twoInRange = Some firedAtNear
  /\ projectiles firedAtNear = projectiles twoInRange ++ [shotAtNear]
  /\ exists entry,
       nearestInRange (H := js) basicTower (towerConfig basicTower)
         (enemyPositionsRef twoInRange) entry
       /\ fst entry = "near".
Proof.
  assert (TowerMesh_frame (H := js) 0 0 twoInRange = Some firedAtNear) as Hf
      by (vm_compute; reflexivity).
  split; [reflexivity|]. split; [exact Hf|]. split; [reflexivity|].
  destruct (@tower_targets_nearest js 0%nat 0%Q twoInRange firedAtNear
              basicTower shotAtNear eq_refl Hf eq_refl)
    as (entry & Hnear & Hid & _).
  exists entry. split; [exact Hnear|]. symmetry. exact Hid.
Defined.

(** X9 at [twoShells]: the neighbour ["a"] of the target loses the damage
    2 of the shell once. *)
Lemma hit_changes_are_bounded_witness :
  nth_error (enemies twoShells) 1 = Some (mkEnemy "a" 5)
  /\ nth_error (damaged (H := js) (projectiles twoShells) "p1" shellHit
                  (enemyPositionsRef twoShells) 0 (enemies twoShells)) 1
     = Some (mkEnemy "a" 3)
  /\ (forall p, In p (projectiles twoShells) -> 0 <= p_dmg p)
  /\ 1 <= projectileDmg (projectiles twoShells) "p1"
  /\ e_hp (mkEnemy "a" 5) - 2 * projectileDmg (projectiles twoShells) "p1"
     <= e_hp (mkEnemy "a" 3) <= e_hp (mkEnemy "a" 5).
Proof.
  assert (forall p, In p (projectiles twoShells) -> 0 <= p_dmg p) as Hpos.
  { intros p [<-|[<-|[]]]; simpl; lia. }
  split; [reflexivity|]. split; [vm_compute; reflexivity|].
  split; [exact Hpos|].
  destruct (@hit_changes_are_bounded js (projectiles twoShells) "p1" shellHit
              (enemyPositionsRef twoShells) 0%nat (enemies twoShells) 1%nat
              (mkEnemy "a" 5) (mkEnemy "a" 3) eq_refl
              ltac:(vm_compute; reflexivity)) as (_ & B).
  destruct (B Hpos) as (B1 & B2 & _). split; [exact B1|exact B2].
Defined.


(** X11 at [justSpawned]: the spawned enemy has positive hit points. *)
Lemma live_enemies_have_hit_points_witness :
  run (H := js) firstSpawn (initialState None [1 # 3; 1 # 2; 3 # 10; 99 # 100; 5 # 100])
  = Some justSpawned
  /\ 0 <= wave justSpawned
  /\ forall e, In e (enemies justSpawned) -> 0 < e_hp e.
Proof.
  assert (run (H := js) firstSpawn
            (initialState None [1 # 3; 1 # 2; 3 # 10; 99 # 100; 5 # 100])
          = Some justSpawned) as Hr by (vm_compute; reflexivity).
  split; [exact Hr|].
  exact (@live_enemies_have_hit_points js _ firstSpawn justSpawned Hr).
Defined.

(** X12 at [nearEnd]: the frame that takes the enemy past the last
    waypoint ends with 9 lives. *)
Lemma lives_change_only_at_path_end_witness :
  exists s',
    fire (H := js) (EvEnemyFrame 0 1) nearEnd = Some s'
    /\ lives s' = lives nearEnd - 1.
Proof.
  destruct (fire (H := js) (EvEnemyFrame 0 1) nearEnd) as [s'|] eqn:Hf;
    [|vm_compute in Hf; discriminate].
  exists s'. split; [reflexivity|].
  destruct (@lives_change_only_at_path_end js (EvEnemyFrame 0 1) nearEnd s' Hf)
    as (e & He & Hl).
  apply Some_eq in He. subst e.
  match type of Hl with
  | _ = if ?c then _ else _ =>
      assert (c = true) as E by (vm_compute; reflexivity); rewrite E in Hl
  end.
  exact Hl.
Defined.

(** X13 at [inFlight]: the first projectile moves towards its target. *)
Lemma projectile_frame_only_removes_witness :
  exists s',
    ProjectileMesh_frame (H := js) inFlight 0 (1 # 10) inFlight = Some s'
    /\ towers s' = towers inFlight /\ lives s' = lives inFlight
    /\ money inFlight <= money s'.
Proof.
  destruct (ProjectileMesh_frame (H := js) inFlight 0 (1 # 10) inFlight)
    as [s'|] eqn:Hf; [|vm_compute in Hf; discriminate].
  exists s'. split; [reflexivity|].
  destruct (@projectile_frame_only_removes js inFlight 0%nat (1 # 10) inFlight
              s' Hf) as (A & B & _ & _ & _ & _ & G).
  split; [exact A|]. split; [exact B|exact G].
Defined.

(** X14 for the cannon: level 3 costs 410, level 4 costs 655. *)
Lemma upgrade_price_grows_witness :
  TOWER_TYPES "cannon" = Some TOWER_cannon
  /\ upgradeCost TOWER_cannon 3 <= upgradeCost TOWER_cannon (3 + 1)
  /\ (0 <= 3 -> cost TOWER_cannon <= upgradeCost TOWER_cannon 3).
Proof.
  split; [reflexivity|].
  exact (upgrade_price_grows "cannon" TOWER_cannon 3 eq_refl).
Defined.

(** X15 at [twoShells]: the shell that kills ["b"] pays 10. *)
Lemma money_moves_one_way_witness :
  exists s',
    fire (H := js) (EvProjectileFrame 0 0) twoShells = Some s'
    /\ money twoShells <= money s'.
Proof.
  destruct (fire (H := js) (EvProjectileFrame 0 0) twoShells) as [s'|] eqn:Hf;
    [|vm_compute in Hf; discriminate].
  exists s'. split; [reflexivity|].
  exact (@money_moves_one_way js (EvProjectileFrame 0 0) twoShells s' Hf).
Defined.

